(** * Sublime Music cache manager: a shallow embedding of
    [sublime/cache_manager.py] and the properties of its caching engine.

    Each module below embeds one part of the Python module: the ranked
    search views ([SearchResult]), the immediate-or-deferred [Result]
    handle, the facade lookup ([Singleton.__getattr__]), the album-list
    pagination, the cover-art migration of [load_cache_info], the two
    phase [search] and the download registry of
    [return_cached_or_download]. *)

From Stdlib Require Import ZArith NArith Ascii String Lia Sorted Permutation.
From stdpp Require Import gmap strings list fin_maps pretty.

Open Scope string_scope.
Open Scope nat_scope.
Open Scope list_scope.

(** ** Ranked search views: [SearchResult._to_result] *)

Module SearchResult.

Section ranking.

(** [fuzz.partial_ratio] and [str.lower] come from outside the repository;
    the entity classes come from [server/api_objects.py].  They are taken
    as parameters. *)
Variable partial_ratio : string → string → Z.
Variable lower : string → string.

Variables ArtistID3 AlbumID3 Child Playlist : Type.
Variable artist_name : ArtistID3 → string.
Variables album_name album_artist : AlbumID3 → string.
Variables song_title song_artist : Child → string.
Variable playlist_name : Playlist → string.

(** [similarity_ratio(query, string)]: the memoisation of [lru_cache] does
    not change the value returned. *)
Definition similarity_ratio (query s : string) : Z :=
  partial_ratio (lower query) (lower s).

Section to_result.

Context {A : Type}.

(** [sorted(..., key=lambda rx: rx[0], reverse=True)] is stable: among equal
    ratios the order of the input is kept.  Insertion in front of the first
    element whose ratio is not larger gives exactly that list. *)
Fixpoint insert_desc (rx : Z * A) (l : list (Z * A)) : list (Z * A) :=
  match l with
  | [] => [rx]
  | ry :: l' =>
      if (rx.1 <? ry.1)%Z then ry :: insert_desc rx l' else rx :: ry :: l'
  end.

Definition sorted_reverse (l : list (Z * A)) : list (Z * A) :=
  foldr insert_desc [] l.

(** The [for ratio, x in all_results] loop, with [result] as accumulator;
    the [else] branch is the [break]. *)
Fixpoint collect (all_results : list (Z * A)) (result : list A) : list A :=
  match all_results with
  | [] => result
  | (ratio, x) :: rest =>
      if (60 <? ratio)%Z && (length result <? 20)%nat
      then collect rest (result ++ [x])
      else result
  end.

Definition scored (query : string) (transform : A → string) (it : list A)
  : list (Z * A) :=
  map (λ x, (similarity_ratio query (transform x), x)) it.

Definition all_results (query : string) (transform : A → string)
    (it : list A) : list (Z * A) :=
  sorted_reverse (scored query transform it).

Definition _to_result (query : string) (it : list A)
    (transform : A → string) : list A :=
  collect (all_results query transform it) [].

(** Descending order of the ratios. *)
Definition desc (a b : Z * A) : Prop := (b.1 ≤ a.1)%Z.

Lemma insert_desc_perm rx l : insert_desc rx l ≡ₚ rx :: l.
Proof.
  induction l as [|ry l IH]; simpl; [done|].
  destruct (rx.1 <? ry.1)%Z; [|done].
  rewrite IH. apply Permutation_swap.
Qed.

Lemma sorted_reverse_perm l : sorted_reverse l ≡ₚ l.
Proof.
  induction l as [|rx l IH]; simpl; [done|].
  by rewrite insert_desc_perm, IH.
Qed.

Lemma insert_desc_hdrel rx ry l :
  desc ry rx → HdRel desc ry l → HdRel desc ry (insert_desc rx l).
Proof.
  intros Hrx Hl. destruct l as [|rz l]; simpl; [by constructor|].
  destruct (rx.1 <? rz.1)%Z; constructor; [by inversion Hl|done].
Qed.

Lemma insert_desc_sorted rx l :
  Sorted desc l → Sorted desc (insert_desc rx l).
Proof.
  induction 1 as [|ry l Hl IH Hhd]; simpl; [by repeat constructor|].
  destruct (rx.1 <? ry.1)%Z eqn:E.
  - constructor; [done|]. apply insert_desc_hdrel; [|done].
    unfold desc. lia.
  - constructor; [by constructor|]. constructor. unfold desc. lia.
Qed.

Lemma sorted_reverse_sorted l : Sorted desc (sorted_reverse l).
Proof.
  induction l as [|rx l IH]; simpl; [constructor|].
  by apply insert_desc_sorted.
Qed.

(** What the loop computes, for any accumulator. *)
Lemma collect_spec l acc :
  ∃ taken,
    collect l acc = acc ++ taken.*2 ∧
    taken `prefix_of` l ∧
    Forall (λ rx, (60 < rx.1)%Z) taken ∧
    (length acc ≤ 20 → length (acc ++ taken.*2) ≤ 20).
Proof.
  assert (Hstop : ∀ (acc : list A) (l : list (Z * A)), ∃ taken : list (Z * A),
    acc = acc ++ taken.*2 ∧ taken `prefix_of` l ∧
    Forall (λ rx, (60 < rx.1)%Z) taken ∧
    (length acc ≤ 20 → length (acc ++ taken.*2) ≤ 20)).
  { intros acc' l'. exists []. simpl. rewrite app_nil_r.
    split_and!; [done|apply prefix_nil|constructor|done]. }
  revert acc. induction l as [|[ratio x] l IH]; intros acc; simpl.
  - apply Hstop.
  - destruct (60 <? ratio)%Z eqn:E1; simpl; [|apply Hstop].
    destruct (length acc <? 20) eqn:E2; [|apply Hstop].
    destruct (IH (acc ++ [x])) as (taken & Heq & Hpre & Hall & Hlen).
    exists ((ratio, x) :: taken).
    rewrite Heq, fmap_cons, <- app_assoc. simpl. split_and!.
    + done.
    + by apply prefix_cons.
    + constructor; [simpl; lia|done].
    + intros _. rewrite <- app_assoc in Hlen. simpl in Hlen.
      apply Hlen. rewrite length_app. simpl.
      apply Nat.ltb_lt in E2. lia.
Qed.

Lemma sorted_prefix (l1 l2 : list (Z * A)) :
  l1 `prefix_of` l2 → Sorted desc l2 → Sorted desc l1.
Proof.
  intros [k ->]. induction l1 as [|a l1 IH]; simpl; [constructor|].
  intros Hs. inversion Hs as [|? ? Hs' Hhd]; subst.
  constructor; [by apply IH|].
  destruct l1; simpl in *; [constructor|]. inversion Hhd. by constructor.
Qed.

(** On a list in descending order the loop keeps the first 20 of the
    candidates above 60: no later candidate qualifies after the break. *)
Lemma desc_tail_le rx l :
  Sorted desc (rx :: l) → Forall (λ ry, (ry.1 ≤ rx.1)%Z) l.
Proof.
  intros Hs. apply Sorted_StronglySorted in Hs.
  - by inversion Hs.
  - intros a b c. unfold desc. lia.
Qed.

Lemma filter_above_none (l : list (Z * A)) :
  Forall (λ ry, (ry.1 ≤ 60)%Z) l → filter (λ rx, (60 < rx.1)%Z) l = [].
Proof.
  induction 1 as [|ry l Hry _ IH]; [done|].
  rewrite filter_cons_False by lia. exact IH.
Qed.

Lemma collect_sorted l acc :
  Sorted desc l →
  collect l acc =
    acc ++ (take (20 - length acc) (filter (λ rx, (60 < rx.1)%Z) l)).*2.
Proof.
  revert acc. induction l as [|[ratio x] l IH]; intros acc Hs; simpl.
  - rewrite filter_nil, take_nil. simpl. by rewrite app_nil_r.
  - pose proof (desc_tail_le _ _ Hs) as Hle. simpl in Hle.
    assert (Hs' : Sorted desc l) by (by inversion Hs).
    destruct (60 <? ratio)%Z eqn:E1; simpl.
    + rewrite filter_cons_True by (simpl; lia).
      destruct (length acc <? 20) eqn:E2.
      * apply Nat.ltb_lt in E2. rewrite IH by done.
        rewrite length_app. simpl.
        replace (20 - length acc) with (S (20 - (length acc + 1))) by lia.
        simpl. by rewrite <- app_assoc.
      * apply Nat.ltb_ge in E2.
        replace (20 - length acc) with 0 by lia.
        simpl. by rewrite app_nil_r.
    + rewrite filter_cons_False by (simpl; lia).
      replace (filter (λ rx, (60 < rx.1)%Z) l) with (@nil (Z * A)).
      * rewrite take_nil. simpl. by rewrite app_nil_r.
      * symmetry. apply filter_above_none.
        eapply Forall_impl; [exact Hle|]. simpl. intros ry Hry. lia.
Qed.

(** The properties of one ranked view [result] computed from the
    candidates [it]. *)
Definition ranked_view_ok (query : string) (transform : A → string)
    (it result : list A) : Prop :=
  length result ≤ 20 ∧
  Forall (λ x, (60 < similarity_ratio query (transform x))%Z) result ∧
  Sorted desc (all_results query transform it) ∧
  all_results query transform it ≡ₚ scored query transform it ∧
  ∃ taken, result = taken.*2 ∧
           taken `prefix_of` all_results query transform it ∧
           Sorted desc taken.

Lemma scored_fst query transform it :
  Forall (λ rx, rx.1 = similarity_ratio query (transform rx.2))
         (scored query transform it).
Proof. unfold scored. induction it; simpl; by constructor. Qed.

Lemma to_result_ok query transform it :
  ranked_view_ok query transform it (_to_result query it transform).
Proof.
  unfold ranked_view_ok, _to_result.
  destruct (collect_spec (all_results query transform it) [])
    as (taken & Heq & Hpre & Hall & Hlen).
  simpl in Heq, Hlen. rewrite Heq. split_and!.
  - apply Hlen. simpl. lia.
  - assert (Hfst : Forall (λ rx, rx.1 = similarity_ratio query (transform rx.2))
                          taken).
    { apply Forall_forall. intros rx Hin.
      pose proof (scored_fst query transform it) as Hsc.
      rewrite Forall_forall in Hsc. apply Hsc.
      rewrite <- (sorted_reverse_perm (scored query transform it)).
      destruct Hpre as [k Hk]. unfold all_results in Hk. rewrite Hk.
      apply elem_of_app. by left. }
    clear Heq Hpre Hlen. induction taken as [|rx taken IH]; simpl.
    + constructor.
    + inversion Hall; inversion Hfst; subst.
      constructor; [lia|by apply IH].
  - apply sorted_reverse_sorted.
  - apply sorted_reverse_perm.
  - exists taken. split_and!; [done|done|].
    eapply sorted_prefix; [done|]. apply sorted_reverse_sorted.
Qed.

(** *** The ranked view, exactly *)

Lemma scored_filter query transform it :
  (filter (λ rx, (60 < rx.1)%Z) (scored query transform it)).*2 =
    filter (λ x, (60 < similarity_ratio query (transform x))%Z) it.
Proof.
  unfold scored. induction it as [|x it IH]; [done|]. simpl.
  destruct (decide (60 < similarity_ratio query (transform x))%Z) as [Hx|Hx].
  - rewrite !filter_cons_True by done. rewrite fmap_cons. f_equal. exact IH.
  - rewrite !filter_cons_False by done. exact IH.
Qed.

(** X1: the view is exactly the first 20, in sorted order, of the
    candidates scoring above 60: the break at the first candidate that does
    not qualify loses nothing that a full scan would have kept. *)
Theorem to_result_exact query transform it :
  _to_result query it transform =
    (take 20 (filter (λ rx, (60 < rx.1)%Z)
                     (all_results query transform it))).*2.
Proof.
  unfold _to_result. rewrite collect_sorted by apply sorted_reverse_sorted.
  done.
Qed.

(** X2: when at most 20 candidates score above 60, the view holds every
    one of them and nothing else. *)
Theorem to_result_complete query transform it :
  length (filter (λ x, (60 < similarity_ratio query (transform x))%Z) it) ≤ 20 →
  _to_result query it transform ≡ₚ
    filter (λ x, (60 < similarity_ratio query (transform x))%Z) it.
Proof.
  intros Hlen. unfold _to_result.
  rewrite collect_sorted by apply sorted_reverse_sorted. simpl.
  assert (Hperm : filter (λ rx : Z * A, (60 < rx.1)%Z)
                         (all_results query transform it)
                  ≡ₚ filter (λ rx, (60 < rx.1)%Z) (scored query transform it)).
  { unfold all_results. by rewrite sorted_reverse_perm. }
  rewrite take_ge.
  - rewrite Hperm. by rewrite scored_filter.
  - rewrite Hperm, <- (length_fmap snd), scored_filter. lia.
Qed.

End to_result.

(** The aggregate: [query] and the four raw sets, each possibly [None].
    A set is given by the list of its elements in iteration order. *)
Record aggregate := {
  query : string;
  _artist : option (list ArtistID3);
  _album : option (list AlbumID3);
  _song : option (list Child);
  _playlist : option (list Playlist)
}.

(** The transforms of the four properties, with [f"{a} - {b}"] written
    out. *)
Definition album_label (a : AlbumID3) : string :=
  album_name a +:+ " - " +:+ album_artist a.
Definition song_label (s : Child) : string :=
  song_title s +:+ " - " +:+ song_artist s.

Definition artist (sr : aggregate) : option (list ArtistID3) :=
  match _artist sr with
  | None => None
  | Some it => Some (_to_result (query sr) it artist_name)
  end.

Definition album (sr : aggregate) : option (list AlbumID3) :=
  match _album sr with
  | None => None
  | Some it => Some (_to_result (query sr) it album_label)
  end.

Definition song (sr : aggregate) : option (list Child) :=
  match _song sr with
  | None => None
  | Some it => Some (_to_result (query sr) it song_label)
  end.

Definition playlist (sr : aggregate) : option (list Playlist) :=
  match _playlist sr with
  | None => None
  | Some it => Some (_to_result (query sr) it playlist_name)
  end.

(** A view is [None] exactly when its raw set is, and otherwise is a
    ranked view of it. *)
Definition view_ok {A : Type} (query : string) (transform : A → string)
    (raw view : option (list A)) : Prop :=
  match raw, view with
  | Some it, Some result => ranked_view_ok query transform it result
  | None, None => True
  | _, _ => False
  end.

(** C5: for every query and each of the four categories, the ranked view
    has at most 20 items, every item scores strictly above 60 against the
    query, and the items are a front segment, in descending score order, of
    the candidates sorted by descending score. *)
Theorem ranked_views_bounded (sr : aggregate) :
  view_ok (query sr) artist_name (_artist sr) (artist sr) ∧
  view_ok (query sr) album_label (_album sr) (album sr) ∧
  view_ok (query sr) song_label (_song sr) (song sr) ∧
  view_ok (query sr) playlist_name (_playlist sr) (playlist sr).
Proof.
  unfold artist, album, song, playlist.
  split_and!.
  - destruct (_artist sr); simpl; [apply to_result_ok|done].
  - destruct (_album sr); simpl; [apply to_result_ok|done].
  - destruct (_song sr); simpl; [apply to_result_ok|done].
  - destruct (_playlist sr); simpl; [apply to_result_ok|done].
Qed.

End ranking.

Arguments aggregate : clear implicits.
Arguments Build_aggregate {_ _ _ _} _ _ _ _ _.
Arguments query {_ _ _ _} _.
Arguments _artist {_ _ _ _} _.
Arguments _album {_ _ _ _} _.
Arguments _song {_ _ _ _} _.
Arguments _playlist {_ _ _ _} _.

(** The witness of [to_result_complete]: two candidates, both scoring
    100. *)
Lemma to_result_complete_witness :
  _to_result (λ _ _, 100%Z) (λ s, s) "q" [1; 2] (λ _, "x") ≡ₚ [1; 2].
Proof.
  apply (to_result_complete (λ _ _, 100%Z) (λ s, s) "q" (λ _, "x") [1; 2]).
  simpl. lia.
Defined.

End SearchResult.

(** ** Python outcomes *)

Module Py.

(** The exceptions that occur in the embedded code. *)
Inductive exn :=
| Exception (msg : string)
| TypeError
| AttributeError
| CancelledError
| ConnectionError.

(** A call returns a value or raises. *)
Inductive reply (T : Type) :=
| Ret (v : T)
| Raise (e : exn).

Arguments Ret {T} v.
Arguments Raise {T} e.

End Py.

(** ** The immediate-or-deferred handle: [CacheManager.Result] *)

Module Result.

Import Py.

Section result.

(** [T] is the type of the values that are not [None]; an [Optional[T]] is
    an [option T].  [Fn] names the callables handed in as callbacks. *)
Context {T Fn : Type}.

(** [concurrent.futures.Future] belongs to the standard library of Python:
    a future is pending or running until it is cancelled or finished, and
    it keeps the callbacks registered while it was not done. *)
Inductive future_state :=
| PENDING
| RUNNING
| CANCELLED
| FINISHED (o : reply (option T)).

(** A callback registered on a future is either a callable of the caller or
    the wrapper [lambda f: after_download and after_download(f.result())]
    that [from_server] builds around [after_download]. *)
Inductive callback :=
| User (fn : Fn)
| AfterDownload (fn : Fn).

(** [work] is the callable submitted to the executor and [before] the
    hook that the submitted wrapper runs first. *)
Record Future := {
  before : option Fn;
  work : Fn;
  state : future_state;
  done_callbacks : list callback
}.

Definition with_state (f : Future) (s : future_state) : Future :=
  {| before := before f; work := work f; state := s;
     done_callbacks := done_callbacks f |}.

Record t := {
  data : option T;
  future : option Future;
  on_cancel : option Fn
}.

(** The objects that are passed to callbacks. *)
Inductive obj :=
| ObjValue (v : option T)
| ObjResult (r : t)
| ObjFuture (f : Future).

(** One invocation of [callee] on the arguments [args]. *)
Record call := {
  callee : Fn;
  args : list obj
}.

Definition done (f : Future) : bool :=
  match state f with
  | CANCELLED | FINISHED _ => true
  | PENDING | RUNNING => false
  end.

(** [Future.result()] on a future that is done; [None] when the caller is
    still blocked. *)
Definition Future_result (f : Future) : option (reply (option T)) :=
  match state f with
  | FINISHED o => Some o
  | CANCELLED => Some (Raise CancelledError)
  | PENDING | RUNNING => None
  end.

(** What invoking a registered callback with the future does: a callable of
    the caller receives the future; the wrapper of [from_server] calls
    [after_download] with [f.result()] and, when that raises, does not call
    it at all. *)
Definition invoke (f : Future) (cb : callback) : list call :=
  match cb with
  | User fn => [ {| callee := fn; args := [ObjFuture f] |} ]
  | AfterDownload fn =>
      match Future_result f with
      | Some (Ret v) => [ {| callee := fn; args := [ObjValue v] |} ]
      | _ => []
      end
  end.

(** [Future.add_done_callback(fn)]: called at once when the future is done,
    kept otherwise. *)
Definition Future_add_done_callback (f : Future) (cb : callback)
  : Future * list call :=
  if done f then (f, invoke f cb)
  else ({| before := before f; work := work f; state := state f;
           done_callbacks := done_callbacks f ++ [cb] |},
        []).

(** The worker finishes the future with outcome [o]: the registered
    callbacks are invoked in the order of their registration. *)
Definition Future_finish (f : Future) (o : reply (option T))
  : Future * list call :=
  let f' := with_state f (FINISHED o) in
  (f', concat (map (invoke f') (done_callbacks f))).

(** [Future.cancel()]: a running or finished future cannot be cancelled. *)
Definition Future_cancel (f : Future) : Future * bool * list call :=
  match state f with
  | RUNNING | FINISHED _ => (f, false, [])
  | CANCELLED => (f, true, [])
  | PENDING =>
      let f' := with_state f CANCELLED in
      (f', true, concat (map (invoke f') (done_callbacks f)))
  end.

Definition from_data (d : option T) : t :=
  {| data := d; future := None; on_cancel := None |}.

(** [from_server]: the future returned by [executor.submit(future_fn)] is
    pending; [after_download], when given, is registered on it. *)
Definition from_server (download_fn : Fn)
    (before_download after_download on_cancel : option Fn) : t :=
  {| data := None;
     future := Some {| before := before_download;
                       work := download_fn;
                       state := PENDING;
                       done_callbacks :=
                         match after_download with
                         | Some fn => [AfterDownload fn]
                         | None => []
                         end |};
     on_cancel := on_cancel |}.

Definition no_member : exn :=
  Exception "CacheManager.Result did not have either a data or future member.".

(** [Result.result()]; [None] when the caller is blocked on the future. *)
Definition result (r : t) : option (reply (option T)) :=
  match data r with
  | Some v => Some (Ret (Some v))
  | None =>
      match future r with
      | Some f => Future_result f
      | None => Some (Raise no_member)
      end
  end.

(** [Result.add_done_callback] on [fn] and the extra positional arguments
    [more]: the handle after the call and
    the invocations the call makes before it returns.  A future accepts
    one callable and nothing else. *)
Definition add_done_callback (r : t) (fn : Fn) (more : list obj)
  : reply (t * list call) :=
  match future r with
  | Some f =>
      match more with
      | [] =>
          let '(f', calls) := Future_add_done_callback f (User fn) in
          Ret ({| data := data r; future := Some f';
                  on_cancel := on_cancel r |}, calls)
      | _ :: _ => Raise TypeError
      end
  | None => Ret (r, [ {| callee := fn; args := ObjResult r :: more |} ])
  end.

(** [Result.cancel()]: the invocation of [on_cancel], then the future's
    answer. *)
Definition cancel (r : t) : t * bool * list call :=
  let notified :=
    match on_cancel r with
    | Some fn => [ {| callee := fn; args := [] |} ]
    | None => []
    end in
  match future r with
  | Some f =>
      let '(f', ok, calls) := Future_cancel f in
      ({| data := data r; future := Some f'; on_cancel := on_cancel r |},
       ok, notified ++ calls)
  | None => (r, true, notified)
  end.

Definition is_future (r : t) : bool :=
  match future r with Some _ => true | None => false end.

(** *** Properties of the handle *)

Lemma result_from_data (d : option T) :
  result (from_data d) =
    Some (match d with Some v => Ret (Some v) | None => Raise no_member end).
Proof. by destruct d. Qed.

Lemma invoke_user (f : Future) (fn : Fn) :
  invoke f (User fn) = [ {| callee := fn; args := [ObjFuture f] |} ].
Proof. done. Qed.

(** C7, as the code has it: registering [fn] makes exactly one invocation
    of [fn], and its argument is the handle, not the resolved value.  On
    an immediate handle [fn] runs during the registration with the
    [Result] itself.  On a handle with a future that is done [fn] runs
    during the registration with the future.  Otherwise nothing runs
    during the registration, and when the future finishes or is cancelled
    the callbacks registered earlier run, followed by one invocation of
    [fn] with the future. *)
Theorem add_done_callback_once (r : t) (fn : Fn) :
  match future r with
  | None =>
      add_done_callback r fn [] =
        Ret (r, [ {| callee := fn; args := [ObjResult r] |} ])
  | Some f =>
      if done f
      then add_done_callback r fn [] =
             Ret (r, [ {| callee := fn; args := [ObjFuture f] |} ])
      else ∃ f',
          add_done_callback r fn [] =
            Ret ({| data := data r; future := Some f';
                    on_cancel := on_cancel r |}, []) ∧
          (∀ o, ∃ ff,
              Future_finish f' o =
                (ff, concat (map (invoke ff) (done_callbacks f))
                       ++ [ {| callee := fn; args := [ObjFuture ff] |} ]) ∧
              state ff = FINISHED o) ∧
          (state f = PENDING → ∃ ff,
              Future_cancel f' =
                (ff, true,
                 concat (map (invoke ff) (done_callbacks f))
                   ++ [ {| callee := fn; args := [ObjFuture ff] |} ]) ∧
              state ff = CANCELLED)
  end.
Proof.
  destruct r as [d [f|] oc]; simpl; [|done].
  unfold add_done_callback, Future_add_done_callback. simpl.
  destruct (done f) eqn:Hd; [done|].
  eexists. split; [reflexivity|]. split.
  - intros o. unfold Future_finish. simpl.
    eexists. split.
    + rewrite map_app, concat_app. simpl. reflexivity.
    + reflexivity.
  - intros Hp. unfold Future_cancel. simpl. rewrite Hp.
    eexists. split.
    + rewrite map_app, concat_app. simpl. reflexivity.
    + reflexivity.
Qed.

(** *** The life of a handle built by [from_server] *)

(** The worker of the executor takes the job: the future is running from
    then on. *)
Definition set_running (f : Future) : Future := with_state f RUNNING.

(** The handle [r] with its future replaced by [f]. *)
Definition with_future (r : t) (f : Future) : t :=
  {| data := data r; future := Some f; on_cancel := on_cancel r |}.

(** X3: on a handle built by [from_server] with an [after_download],
    finishing the job with a value calls [after_download] once, with that
    value, and [result()] returns it; finishing it with an exception calls
    nothing, and [result()] raises that exception. *)
Theorem after_download_on_success_only
    (download_fn after_download : Fn) (before_download cancel_fn : option Fn)
    (o : reply (option T)) :
  let r := from_server download_fn before_download (Some after_download)
                       cancel_fn in
  match future r with
  | Some f =>
      result (with_future r (Future_finish (set_running f) o).1) = Some o ∧
      (Future_finish (set_running f) o).2 =
        match o with
        | Ret v => [ {| callee := after_download; args := [ObjValue v] |} ]
        | Raise _ => []
        end
  | None => False
  end.
Proof. by destruct o. Qed.

(** X4: cancelling a handle built by [from_server].  While the job is
    still queued the future is cancelled: the answer is true,
    [after_download] is not called, and [result()] raises
    [CancelledError].  Once the job is running the future cannot be
    cancelled and the answer is false.  In both cases [on_cancel] has been
    called, once and first. *)
Theorem cancel_from_server
    (download_fn after_download cancel_fn : Fn) (before_download : option Fn) :
  let r := from_server download_fn before_download (Some after_download)
                       (Some cancel_fn) in
  match future r with
  | Some f =>
      cancel r =
        (with_future r (with_state f CANCELLED), true,
         [ {| callee := cancel_fn; args := [] |} ]) ∧
      result (with_future r (with_state f CANCELLED)) =
        Some (Raise CancelledError) ∧
      cancel (with_future r (set_running f)) =
        (with_future r (set_running f), false,
         [ {| callee := cancel_fn; args := [] |} ])
  | None => False
  end.
Proof. done. Qed.

End result.

Arguments t : clear implicits.
Arguments Future : clear implicits.
Arguments obj : clear implicits.
Arguments call : clear implicits.
Arguments callback : clear implicits.
Arguments future_state : clear implicits.

(** The invocation made on an immediate handle carries the handle: with
    [from_data(5)] the callback is called on the [Result] object, and that
    argument is not the value 5. *)
Lemma add_done_callback_not_value :
  Result.add_done_callback (T:=Z) (Fn:=string)
      (Result.from_data (Some 5%Z)) "fn" [] =
    Py.Ret (Result.from_data (Some 5%Z),
            [ {| Result.callee := "fn";
                 Result.args := [Result.ObjResult (Result.from_data (Some 5%Z))] |} ])
  ∧ Result.add_done_callback (T:=Z) (Fn:=string)
      (Result.from_data (Some 5%Z)) "fn" [] ≠
    Py.Ret (Result.from_data (Some 5%Z),
            [ {| Result.callee := "fn";
                 Result.args := [Result.ObjValue (Some 5%Z)] |} ]).
Proof. split; [done|]. intros H. discriminate H. Qed.

(** The witness of [add_done_callback_once] on a pending handle. *)
Lemma add_done_callback_once_witness :
  ∃ f' : Result.Future Z string,
    Result.add_done_callback
        (Result.from_server "download" None (Some "after") None) "fn" [] =
      Py.Ret ({| Result.data := None; Result.future := Some f';
                 Result.on_cancel := None |}, []) ∧
    (Result.Future_finish f' (Py.Ret (Some 7%Z))).2 =
      [ {| Result.callee := "after"; Result.args := [Result.ObjValue (Some 7%Z)] |};
        {| Result.callee := "fn";
           Result.args := [Result.ObjFuture
             {| Result.before := None; Result.work := "download";
                Result.state := Result.FINISHED (Py.Ret (Some 7%Z));
                Result.done_callbacks :=
                  [Result.AfterDownload "after"; Result.User "fn"] |}] |} ].
Proof.
  pose proof (Result.add_done_callback_once
                (Result.from_server (T:=Z) "download" None (Some "after") None)
                "fn") as H.
  simpl in H. destruct H as (f' & Heq & _).
  exists f'. split; [exact Heq|].
  unfold Result.add_done_callback in Heq. simpl in Heq.
  injection Heq as <-. reflexivity.
Defined.

End Result.

(** ** The facade: class [CacheManager] with metaclass [Singleton] *)

Module Facade.

Import Py.

(** The internal instance, as far as attribute lookup sees it: the names
    it has itself and the names its [server] has. *)
Record Internal := {
  instance_attrs : gset string;
  server_attrs : gset string
}.

(** [CacheManager._instance]. *)
Definition instance_slot := option Internal.

(** What an attribute lookup on the class yields: [None], an attribute
    bound in the body of the class, an attribute that every class has from
    [type] and [object], an attribute of the internal instance, or an
    attribute of its server. *)
Inductive looked_up :=
| PyNone
| ClassAttr (name : string)
| TypeAttr (name : string)
| InstanceAttr (name : string)
| ServerAttr (name : string).

(** The names bound in the body of [class CacheManager]; the nested class
    [__CacheManagerInternal] is stored under its mangled name. *)
Definition class_defined : list string :=
  [ "executor"; "should_exit"; "Result"; "ready"; "shutdown";
    "CacheEncoder"; "_CacheManager__CacheManagerInternal"; "_instance";
    "__init__"; "reset" ].

(** [Singleton.__getattr__(cls, name)]. *)
Definition __getattr__ (_instance : instance_slot) (name : string)
  : reply looked_up :=
  match _instance with
  | None => Ret PyNone
  | Some inst =>
      if bool_decide (name ∈ instance_attrs inst) then Ret (InstanceAttr name)
      else if bool_decide (name ∈ server_attrs inst) then Ret (ServerAttr name)
      else Raise AttributeError
  end.

(** [CacheManager.ready()]. *)
Definition ready (_instance : instance_slot) : bool :=
  match _instance with Some _ => true | None => false end.

(** [CacheManager.shutdown()]: with no instance the last statement,
    [CacheManager._instance.save_cache_info()], looks the method up on
    [None]. *)
Definition shutdown (_instance : instance_slot) : reply unit :=
  match _instance with
  | Some _ => Ret ()
  | None => Raise AttributeError
  end.

(** The result of an operation of the facade. *)
Inductive answer :=
| Bool (b : bool)
| Unit
| Dispatched (target : looked_up).

Section lookup.

(** The names that the interpreter resolves on [type], on [object] and on
    the metaclass itself ([mro], [__name__], [__doc__], [__subclasses__],
    ...).  Which names these are is a matter of the interpreter, not of the
    repository, so the predicate is a parameter. *)
Variable from_type : string → bool.

(** [CacheManager.<name>]: Python consults the hook of the metaclass only
    when the ordinary lookup fails, that is, when the name is neither bound
    in the body of the class nor found on [type] or [object]. *)
Definition class_getattr (_instance : instance_slot) (name : string)
  : reply looked_up :=
  if bool_decide (name ∈ class_defined) then Ret (ClassAttr name)
  else if from_type name then Ret (TypeAttr name)
  else __getattr__ _instance name.

(** [CacheManager.<name>(...)]: [ready] and [shutdown] run their bodies;
    for any other name the attribute is looked up and the object found is
    called.  Calling [None] raises [TypeError]. *)
Definition call_operation (_instance : instance_slot) (name : string)
  : reply answer :=
  if bool_decide (name = "ready") then Ret (Bool (ready _instance))
  else if bool_decide (name = "shutdown") then
    match shutdown _instance with
    | Ret _ => Ret Unit
    | Raise e => Raise e
    end
  else
    match class_getattr _instance name with
    | Ret PyNone => Raise TypeError
    | Ret target => Ret (Dispatched target)
    | Raise e => Raise e
    end.

(** C8: before [reset] there is no internal instance, and every operation
    that the facade dispatches, that is, every name that the ordinary
    lookup does not resolve and that therefore reaches the hook, fails
    when it is invoked: the hook yields [None], and calling [None] raises
    [TypeError].  No value comes back.  [shutdown], which is bound in the
    class, fails as well, on the missing instance. *)
Theorem operations_before_reset (name : string) :
  name ∉ class_defined → from_type name = false →
  class_getattr None name = Ret PyNone ∧
  call_operation None name = Raise TypeError ∧
  call_operation None "shutdown" = Raise AttributeError.
Proof.
  intros Hin Hty. unfold call_operation, class_getattr.
  rewrite (bool_decide_eq_false_2 (name ∈ class_defined)) by done.
  rewrite Hty. simpl.
  rewrite !bool_decide_eq_false_2; [done| |].
  - intros ->. apply Hin. unfold class_defined. set_solver.
  - intros ->. apply Hin. unfold class_defined. set_solver.
Qed.

End lookup.

(** The witness of [operations_before_reset]: the accessor [get_artists],
    with a handful of the names that [type] provides. *)
Lemma operations_before_reset_witness :
  let from_type := λ name : string,
    bool_decide (name ∈ ["mro"; "__name__"; "__doc__"; "__subclasses__"]) in
  call_operation from_type None "get_artists" = Raise TypeError.
Proof.
  intros from_type.
  destruct (operations_before_reset from_type "get_artists") as (_ & H & _).
  - apply (bool_decide_eq_false_1 ("get_artists" ∈ class_defined)).
    vm_compute. reflexivity.
  - reflexivity.
  - exact H.
Defined.

End Facade.

(** ** Paginated album lists: [get_album_list] *)

Module AlbumList.

Section album_list.

Context {AlbumID3 : Type}.

(** [self.server.get_album_list2(type_, size=..., offset=..., **params).album
    or []]: the page the server answers for a list type, a page size and an
    offset. *)
Variable get_album_list2 : string → nat → nat → list AlbumID3.

Definition get_page (type_ : string) (offset page_size : nat)
  : list AlbumID3 :=
  get_album_list2 type_ page_size offset.

(** A request sent to the server: offset and page size. *)
Definition request : Type := nat * nat.

(** The [while len(next_page) == 500] loop.  Its state is [next_page],
    [albums] and [offset]; [sent] logs the requests.  The loop has no bound
    of its own, so the embedding takes fuel and answers [None] when it runs
    out. *)
Fixpoint paging (fuel : nat) (type_ : string)
    (next_page albums : list AlbumID3) (offset : nat) (sent : list request)
  : option (list AlbumID3 * list request) :=
  match fuel with
  | 0 => None
  | S fuel' =>
      if length next_page =? 500 then
        let next_page' := get_page type_ offset 500 in
        paging fuel' type_ next_page' (albums ++ next_page') (offset + 500)
               (sent ++ [(offset, 500)])
      else Some (albums, sent)
  end.

(** [do_get_album_list()]. *)
Definition do_get_album_list (fuel : nat) (type_ : string)
  : option (list AlbumID3 * list request) :=
  let page_size := if String.eqb type_ "random" then 40 else 500 in
  let offset := 0 in
  let next_page := get_page type_ offset page_size in
  paging fuel type_ next_page next_page offset [(offset, page_size)].

(** [self.cache.get("albums", {}).get(type_, [])]. *)
Definition cached (albums : option (gmap string (list AlbumID3)))
    (type_ : string) : list AlbumID3 :=
  default [] (default ∅ albums !! type_).

(** [get_album_list(type_, before_download, force)]: an immediate handle
    on the cached list, or a handle on the future that runs
    [do_get_album_list] with [after_download] registered on it. *)
Definition get_album_list (albums : option (gmap string (list AlbumID3)))
    (type_ : string) (force : bool) : Result.t (list AlbumID3) string :=
  if (0 <? length (cached albums type_)) && negb force
  then Result.from_data (Some (cached albums type_))
  else Result.from_server "do_get_album_list" (Some "before_download")
                          (Some "after_download") None.

End album_list.

(** A server that pages through a fixed library [lib], whatever the list
    type. *)
Definition serve {A : Type} (lib : list A) (type_ : string)
    (size offset : nat) : list A :=
  take size (drop offset lib).

Section paging_facts.

Context {A : Type}.
Variable lib : list A.

Lemma serve_full_page type_ offset :
  500 ≤ length lib - offset →
  length (serve lib type_ 500 offset) = 500
  ∧ serve lib type_ 500 offset ++ drop (offset + 500) lib = drop offset lib.
Proof.
  intros Hlen. unfold serve. split.
  - rewrite length_take, length_drop. lia.
  - rewrite <- (drop_drop lib 500 offset). apply take_drop.
Qed.

Lemma serve_short_page type_ offset :
  length lib - offset < 500 →
  length (serve lib type_ 500 offset) ≠ 500
  ∧ serve lib type_ 500 offset = drop offset lib.
Proof.
  intros Hlen. unfold serve.
  assert (Hd : length (drop offset lib) < 500) by (rewrite length_drop; lia).
  rewrite take_ge by lia. split; [lia|done].
Qed.

(** Against a paging server the loop, entered with a full page in hand
    and enough fuel, appends everything from [offset] on. *)
Lemma paging_serve fuel type_ next_page albums offset sent :
  length next_page = 500 →
  length lib - offset + 500 < 500 * fuel →
  fst <$> paging (serve lib) fuel type_ next_page albums offset sent =
    Some (albums ++ drop offset lib).
Proof.
  revert next_page albums offset sent.
  induction fuel as [|fuel IH]; intros next_page albums offset sent Hnp Hfuel.
  { lia. }
  cbn [paging]. rewrite Hnp, Nat.eqb_refl. unfold get_page.
  destruct (decide (500 ≤ length lib - offset)) as [Hfull|Hshort].
  - destruct (serve_full_page type_ offset Hfull) as [Hlen Heq].
    rewrite IH by (done || lia).
    by rewrite <- app_assoc, Heq.
  - destruct (serve_short_page type_ offset) as [Hlen Heq]; [lia|].
    destruct fuel as [|fuel]; [lia|].
    cbn [paging]. apply Nat.eqb_neq in Hlen. rewrite Hlen. simpl.
    by rewrite Heq.
Qed.

(** What [do_get_album_list] returns against a paging server, for a list
    type other than [random]: a library shorter than one page comes back
    as it is; a longer one comes back with its first page in front of the
    whole library. *)
Lemma do_get_album_list_serve fuel type_ :
  type_ ≠ "random" →
  length lib + 500 < 500 * fuel →
  fst <$> do_get_album_list (serve lib) fuel type_ =
    Some (if length lib <? 500 then lib else take 500 lib ++ lib).
Proof.
  intros Hty Hfuel. unfold do_get_album_list, get_page.
  apply String.eqb_neq in Hty. rewrite Hty.
  destruct (length lib <? 500) eqn:Hlen.
  - apply Nat.ltb_lt in Hlen.
    destruct (serve_short_page type_ 0) as [Hne Heq]; [lia|].
    destruct fuel as [|fuel]; [lia|]. cbn [paging].
    apply Nat.eqb_neq in Hne. rewrite Hne. simpl. by rewrite Heq.
  - apply Nat.ltb_ge in Hlen.
    destruct (serve_full_page type_ 0) as [Hfull Heq]; [lia|].
    rewrite paging_serve by (done || lia).
    unfold serve. by rewrite !drop_0.
Qed.

(** For [random] one page of 40 is requested and, the server answering at
    most 40 albums, nothing else. *)
Lemma do_get_album_list_random fuel :
  0 < fuel →
  do_get_album_list (serve lib) fuel "random" = Some (take 40 lib, [(0, 40)]).
Proof.
  intros Hfuel. unfold do_get_album_list, get_page, serve. simpl String.eqb.
  cbv iota. rewrite drop_0.
  destruct fuel as [|fuel]; [lia|]. cbn [paging].
  assert (Hne : length (take 40 lib) ≠ 500) by (rewrite length_take; lia).
  apply Nat.eqb_neq in Hne. by rewrite Hne.
Qed.

End paging_facts.

(** C3 at a library of 501 albums, numbered from 0, listed by [newest]:
    the loop asks for offset 0 a second time before it advances, so the
    first page is fetched twice and the list returned has 1001 entries,
    the first 500 of them repeated. *)
Theorem first_page_fetched_twice :
  do_get_album_list (serve (seq 0 501)) 3 "newest" =
    Some (seq 0 500 ++ seq 0 501, [(0, 500); (0, 500); (500, 500)])
  ∧ length (seq 0 500 ++ seq 0 501) = 1001
  ∧ ¬ NoDup (seq 0 500 ++ seq 0 501).
Proof.
  split; [vm_compute; reflexivity|]. split; [vm_compute; reflexivity|].
  intros Hnd. apply NoDup_app in Hnd as (_ & Hdisj & _).
  apply (Hdisj 0); apply elem_of_seq; lia.
Qed.

Section cache_check.

Context {A : Type}.

(** C10: the handle is immediate exactly when the cached list of the type
    is not empty and [force] is false, and then carries the cached list; in
    every other case, an empty cached list without [force] included, it is
    the handle of a new fetch. *)
Theorem empty_cached_list_is_miss
    (albums : option (gmap string (list A))) (type_ : string) (force : bool) :
  get_album_list albums type_ force =
    (if decide (cached albums type_ ≠ [] ∧ force = false)
     then Result.from_data (Some (cached albums type_))
     else Result.from_server "do_get_album_list" (Some "before_download")
                             (Some "after_download") None)
  ∧ (Result.is_future (get_album_list albums type_ force) = false
     ↔ cached albums type_ ≠ [] ∧ force = false)
  ∧ Result.is_future
      (get_album_list (Some (<[type_ := []]> (default ∅ albums))) type_ false)
    = true.
Proof.
  unfold get_album_list.
  split_and!.
  - by destruct (cached albums type_) as [|a l] eqn:Hc, force.
  - destruct (cached albums type_) as [|a l] eqn:Hc, force; simpl;
      (split; [done|by intros [? ?]]) || (split; done).
  - unfold cached. simpl. by rewrite lookup_insert_eq.
Qed.

End cache_check.

(** *** Pagination against a paging server, and the cache entry *)

Section paging_outcomes.

Context {A : Type}.
Variable lib : list A.

(** X5: a library of fewer than 500 albums, listed by any type other than
    [random], is fetched with the single request (offset 0, size 500) and
    comes back exactly as the server holds it. *)
Theorem short_library_once fuel type_ :
  type_ ≠ "random" → length lib < 500 → 0 < fuel →
  do_get_album_list (serve lib) fuel type_ = Some (lib, [(0, 500)]).
Proof.
  intros Hty Hlen Hfuel. unfold do_get_album_list, get_page.
  apply String.eqb_neq in Hty. rewrite Hty.
  destruct (serve_short_page lib type_ 0) as [Hne Heq]; [lia|].
  destruct fuel as [|fuel]; [lia|]. cbn [paging].
  apply Nat.eqb_neq in Hne. rewrite Hne, Heq. by rewrite drop_0.
Qed.

(** X6: a library of 500 albums or more, listed by any type other than
    [random], comes back with its first page in front of the whole
    library: the list returned is 500 entries longer than the library. *)
Theorem long_library_repeats_first_page fuel type_ :
  type_ ≠ "random" → 500 ≤ length lib → length lib + 500 < 500 * fuel →
  ∃ sent,
    do_get_album_list (serve lib) fuel type_ = Some (take 500 lib ++ lib, sent)
    ∧ length (take 500 lib ++ lib) = length lib + 500.
Proof.
  intros Hty Hlen Hfuel.
  pose proof (do_get_album_list_serve lib fuel type_ Hty Hfuel) as H.
  assert (Hlt : (length lib <? 500) = false) by (apply Nat.ltb_ge; lia).
  rewrite Hlt in H.
  destruct (do_get_album_list (serve lib) fuel type_) as [[albums sent]|];
    [|done].
  simpl in H. injection H as ->. exists sent. split; [done|].
  rewrite length_app, length_take. lia.
Qed.

(** X7: for [random] exactly one request is sent, for 40 albums at offset
    0, whatever the size of the library; the list returned is the first
    page and never has more than 40 entries. *)
Theorem random_single_page fuel :
  0 < fuel →
  do_get_album_list (serve lib) fuel "random" = Some (take 40 lib, [(0, 40)])
  ∧ length (take 40 lib) ≤ 40.
Proof.
  intros Hfuel. split; [by apply do_get_album_list_random|].
  rewrite length_take. lia.
Qed.

End paging_outcomes.

Section cache_entry.

Context {A : Type}.

(** [after_download(albums)] of [get_album_list], on the category
    [self.cache["albums"]]. *)
Definition after_download (albums_cache : gmap string (list A))
    (type_ : string) (albums : list A) : gmap string (list A) :=
  let albums_cache :=
    match default [] (albums_cache !! type_) with
    | [] => <[type_ := []]> albums_cache
    | _ :: _ => albums_cache
    end in
  <[type_ := albums]> albums_cache.

(** X8: once [after_download] has stored the list fetched for a type, the
    next [get_album_list] for that type without [force] is immediate and
    carries that list, unless the list fetched was empty, in which case it
    fetches again; with [force] it always fetches; the entries of the
    other types are as before. *)
Theorem album_list_round_trip
    (albums_cache : gmap string (list A)) (type_ : string) (albums : list A) :
  let stored := Some (after_download albums_cache type_ albums) in
  get_album_list stored type_ false =
    match albums with
    | [] => Result.from_server "do_get_album_list" (Some "before_download")
                               (Some "after_download") None
    | _ :: _ => Result.from_data (Some albums)
    end
  ∧ Result.is_future (get_album_list stored type_ true) = true
  ∧ ∀ other force, other ≠ type_ →
      get_album_list stored other force =
        get_album_list (Some albums_cache) other force.
Proof.
  intros stored. subst stored.
  assert (Hc : cached (Some (after_download albums_cache type_ albums)) type_
               = albums).
  { unfold cached, after_download. simpl. by rewrite lookup_insert_eq. }
  split_and!.
  - unfold get_album_list. rewrite Hc. by destruct albums.
  - unfold get_album_list. rewrite Hc. by destruct albums.
  - intros other force Hne. unfold get_album_list.
    assert (Ho : cached (Some (after_download albums_cache type_ albums)) other
                 = cached (Some albums_cache) other).
    { unfold cached, after_download. simpl.
      rewrite lookup_insert_ne by done.
      destruct (default [] (albums_cache !! type_)); [|done].
      by rewrite lookup_insert_ne. }
    by rewrite Ho.
Qed.

End cache_entry.

(** The witnesses of the pagination theorems. *)
Lemma short_library_once_witness :
  do_get_album_list (serve [1; 2; 3]) 1 "newest" = Some ([1; 2; 3], [(0, 500)]).
Proof.
  apply (short_library_once [1; 2; 3] 1 "newest"); [done|simpl; lia|lia].
Defined.

Lemma long_library_repeats_first_page_witness :
  ∃ sent,
    do_get_album_list (serve (replicate 500 0)) 3 "newest" =
      Some (take 500 (replicate 500 0) ++ replicate 500 0, sent)
    ∧ length (take 500 (replicate 500 0) ++ replicate 500 0) =
        length (replicate 500 0) + 500.
Proof.
  apply (long_library_repeats_first_page (replicate 500 0) 3 "newest");
    [done|vm_compute; lia|vm_compute; lia].
Defined.

Lemma random_single_page_witness :
  do_get_album_list (serve [1; 2; 3]) 1 "random" = Some (take 40 [1; 2; 3], [(0, 40)])
  ∧ length (take 40 [1; 2; 3]) ≤ 40.
Proof. apply (random_single_page [1; 2; 3] 1). lia. Defined.

End AlbumList.

(** ** The cover-art migration of [load_cache_info] *)

Module Migration.

Section migration.

(** The content of a file. *)
Context {Content : Type}.

(** The [cover_art/] directory maps file names to contents. *)
Local Abbreviation dir := (gmap string Content).

(** The ten ASCII digits.  This is what [\d] accepts on a name that is
    plain ASCII; Python's [\d] also accepts the decimal digits of other
    scripts, so the embedding of the pattern speaks for ASCII names. *)
Definition is_digit (c : ascii) : bool :=
  (48 <=? nat_of_ascii c) && (nat_of_ascii c <=? 57).

(** The longest run of digits at the front of [s], and the rest. *)
Fixpoint span_digits (s : string) : string * string :=
  match s with
  | EmptyString => (EmptyString, EmptyString)
  | String c s' =>
      if is_digit c
      then let '(ds, rest) := span_digits s' in (String c ds, rest)
      else (EmptyString, s)
  end.

(** [re.compile(r"(\d+)_(\d+)").match(name)]: the match is anchored at the
    front of the name only.  Both groups are greedy, and giving back digits
    never helps (what follows a shorter first group is a digit, not the
    underscore), so each group is the longest run of digits there. *)
Definition cover_art_re_match (name : string) : option (string * string) :=
  let '(g1, rest1) := span_digits name in
  match g1, rest1 with
  | String _ _, String "_"%char rest2 =>
      let '(g2, _) := span_digits rest2 in
      match g2 with
      | String _ _ => Some (g1, g2)
      | EmptyString => None
      end
  | _, _ => None
  end.

(** [int(group)] on a run of digits. *)
Fixpoint int_from (acc : N) (s : string) : N :=
  match s with
  | EmptyString => acc
  | String c s' => int_from (10 * acc + (N_of_ascii c - 48))%N s'
  end.

Definition int (s : string) : N := int_from 0%N s.

(** [cover_art_file.parent.joinpath("{art_id}")]: the argument is a plain
    string literal, so this is the name the file gets. *)
Definition no_dimens : string := "{art_id}".

(** [shutil.move(src, dst)] within the directory: a file at [dst] is
    replaced.  Every name the loop visits exists, the other branch only
    makes the function total. *)
Definition move (src dst : string) (d : dir) : dir :=
  match d !! src with
  | Some c => <[dst := c]> (delete src d)
  | None => d
  end.

(** [cover_art_file.unlink()]. *)
Definition unlink (name : string) (d : dir) : dir := delete name d.

(** The body of [for cover_art_file in abs_path.iterdir()]. *)
Definition migrate_file (d : dir) (name : string) : dir :=
  match cover_art_re_match name with
  | Some (art_id, dimensions) =>
      if (int dimensions =? 1000)%N
      then move name no_dimens d
      else unlink name d
  | None => d
  end.

(** The loop over a listing of the directory. *)
Definition migrate (listing : list string) (d : dir) : dir :=
  foldl migrate_file d listing.

(** [abs_path.iterdir()]: the names in the directory, in the order the map
    enumerates them. *)
Definition iterdir (d : dir) : list string := (map_to_list d).*1.

(** The migration part of [load_cache_info]: [version] is the entry of the
    snapshot, absent in a snapshot without one; the result is the version
    stored in the cache and the directory afterwards. *)
Definition load_cache_info (version : option Z) (d : dir) : Z * dir :=
  let cache_version := default 0%Z version in
  (1%Z, if (cache_version <? 1)%Z then migrate (iterdir d) d else d).

(** *** What the migration does *)

Definition matched (name : string) : Prop :=
  is_Some (cover_art_re_match name).

Lemma no_dimens_unmatched : cover_art_re_match no_dimens = None.
Proof. reflexivity. Qed.

Lemma matched_not_no_dimens name : matched name → name ≠ no_dimens.
Proof.
  intros [g Hg] ->. rewrite no_dimens_unmatched in Hg. discriminate.
Qed.

(** A matched name that is absent stays absent. *)
Lemma migrate_file_absent (d : gmap string Content) name x :
  matched name → d !! name = None → migrate_file d x !! name = None.
Proof.
  intros Hm Hnone. unfold migrate_file.
  destruct (cover_art_re_match x) as [[art_id dimensions]|]; [|done].
  destruct (int dimensions =? 1000)%N.
  - unfold move. destruct (d !! x) as [c|]; [|done].
    rewrite lookup_insert_ne by (apply not_eq_sym; by apply matched_not_no_dimens).
    destruct (decide (x = name)) as [->|Hne].
    + by rewrite lookup_delete_eq.
    + by rewrite lookup_delete_ne.
  - unfold unlink. destruct (decide (x = name)) as [->|Hne].
    + by rewrite lookup_delete_eq.
    + by rewrite lookup_delete_ne.
Qed.

(** Visiting a matched name removes it, whatever its dimensions. *)
Lemma migrate_file_self (d : gmap string Content) name :
  matched name → migrate_file d name !! name = None.
Proof.
  intros Hm. pose proof (matched_not_no_dimens _ Hm) as Hne.
  destruct Hm as [[art_id dimensions] Hg].
  unfold migrate_file. rewrite Hg.
  destruct (int dimensions =? 1000)%N.
  - unfold move. destruct (d !! name) as [c|] eqn:Hd; [|done].
    rewrite lookup_insert_ne by done. by rewrite lookup_delete_eq.
  - unfold unlink. by rewrite lookup_delete_eq.
Qed.

Lemma migrate_absent listing (d : gmap string Content) name :
  matched name → d !! name = None → migrate listing d !! name = None.
Proof.
  intros Hm. revert d. unfold migrate.
  induction listing as [|x listing IH]; intros d Hnone; simpl; [done|].
  apply IH. by apply migrate_file_absent.
Qed.

Lemma migrate_removes listing (d : gmap string Content) name :
  matched name → name ∈ listing → migrate listing d !! name = None.
Proof.
  intros Hm. revert d.
  induction listing as [|x listing IH]; intros d Hin.
  - by apply elem_of_nil in Hin.
  - unfold migrate. simpl. fold (migrate listing (migrate_file d x)).
    destruct (decide (x = name)) as [->|Hne].
    + apply migrate_absent; [done|]. by apply migrate_file_self.
    + apply IH. apply elem_of_cons in Hin as [Heq|Hin]; [congruence|done].
Qed.

Lemma elem_of_iterdir (d : gmap string Content) name :
  name ∈ iterdir d ↔ is_Some (d !! name).
Proof.
  unfold iterdir. rewrite list_elem_of_fmap. split.
  - intros ([k c] & -> & Hin). apply elem_of_map_to_list in Hin. by exists c.
  - intros [c Hc]. exists (name, c). split; [done|].
    by apply elem_of_map_to_list.
Qed.

(** After the migration no matched name is left: the files of the form
    [<id>_<d>] with [d] other than 1000 are deleted, and the files of the
    form [<id>_1000] are no longer there under their old name. *)
Lemma migrated_clean (d : gmap string Content) name :
  matched name → migrate (iterdir d) d !! name = None.
Proof.
  intros Hm. destruct (d !! name) as [c|] eqn:Hd.
  - apply migrate_removes; [done|]. apply elem_of_iterdir. by exists c.
  - by apply migrate_absent.
Qed.

(** A directory without matched names is left as it is. *)
Lemma migrate_clean_id listing (d : gmap string Content) :
  (∀ name, matched name → d !! name = None) → migrate listing d = d.
Proof.
  intros Hclean. unfold migrate.
  induction listing as [|x listing IH]; simpl; [done|].
  assert (Hx : migrate_file d x = d); [|by rewrite Hx].
  unfold migrate_file.
  destruct (cover_art_re_match x) as [[art_id dimensions]|] eqn:Hg; [|done].
  assert (Hnone : d !! x = None) by (apply Hclean; by eexists).
  destruct (int dimensions =? 1000)%N.
  - unfold move. by rewrite Hnone.
  - unfold unlink. by apply delete_id.
Qed.

(** Running the migration again on a migrated directory changes nothing. *)
Lemma migrate_idempotent (d : gmap string Content) :
  let d' := migrate (iterdir d) d in migrate (iterdir d') d' = d'.
Proof.
  intros d'. apply migrate_clean_id. intros name Hm.
  by apply migrated_clean.
Qed.

(** The other files, the target name apart, are not touched. *)
Lemma migrate_file_other (d : gmap string Content) name x :
  ¬ matched name → name ≠ no_dimens →
  migrate_file d x !! name = d !! name.
Proof.
  intros Hm Hne. unfold migrate_file.
  destruct (cover_art_re_match x) as [[art_id dimensions]|] eqn:Hg; [|done].
  assert (Hx : x ≠ name) by (intros ->; apply Hm; by eexists).
  destruct (int dimensions =? 1000)%N.
  - unfold move. destruct (d !! x) as [c|]; [|done].
    rewrite lookup_insert_ne by done. by rewrite lookup_delete_ne.
  - unfold unlink. by rewrite lookup_delete_ne.
Qed.

Lemma migrate_other listing (d : gmap string Content) name :
  ¬ matched name → name ≠ no_dimens →
  migrate listing d !! name = d !! name.
Proof.
  intros Hm Hne. revert d. unfold migrate.
  induction listing as [|x listing IH]; intros d; simpl; [done|].
  rewrite IH. by apply migrate_file_other.
Qed.

(** *** Loading as a whole *)

Definition all_digits (s : string) : bool :=
  forallb is_digit (list_ascii_of_string s).

Lemma span_digits_app (a rest : string) :
  all_digits a = true →
  match rest with
  | EmptyString => True
  | String c _ => is_digit c = false
  end →
  span_digits (a +:+ rest) = (a, rest).
Proof.
  unfold all_digits. intros Ha Hrest.
  induction a as [|c a IH]; simpl in *.
  - destruct rest as [|c rest]; [done|]. simpl. by rewrite Hrest.
  - apply andb_true_iff in Ha as [Hc Ha]. rewrite Hc.
    change (String.append a rest) with (a +:+ rest). by rewrite IH.
Qed.

(** Every name made of an id, an underscore and dimensions, all in
    digits, is one the pattern matches. *)
Lemma digits_matched (art_id dimensions : string) :
  all_digits art_id = true → all_digits dimensions = true →
  art_id ≠ "" → dimensions ≠ "" →
  cover_art_re_match (art_id +:+ "_" +:+ dimensions) =
    Some (art_id, dimensions).
Proof.
  intros Ha Hd Hane Hdne. unfold cover_art_re_match.
  rewrite (span_digits_app art_id ("_" +:+ dimensions)) by done.
  destruct art_id as [|c art_id]; [done|].
  change ("_" +:+ dimensions) with (String "_"%char dimensions).
  replace dimensions with (dimensions +:+ "") at 1.
  - rewrite (span_digits_app dimensions "") by done.
    by destruct dimensions.
  - clear. induction dimensions as [|c d IH]; [done|].
    change (String c d +:+ "") with (String c (d +:+ "")). by rewrite IH.
Qed.

(** A step adds no name but the target of the move. *)
Lemma migrate_file_lookup_Some (d : gmap string Content) x name c :
  migrate_file d x !! name = Some c →
  name = no_dimens ∨ d !! name = Some c.
Proof.
  unfold migrate_file.
  destruct (cover_art_re_match x) as [[art_id dimensions]|]; [|by right].
  destruct (int dimensions =? 1000)%N.
  - unfold move. destruct (d !! x) as [cx|] eqn:Hx; [|by right].
    destruct (decide (name = no_dimens)) as [->|Hne]; [by left|].
    rewrite lookup_insert_ne by done.
    intros H. right. by apply lookup_delete_Some in H as [_ H].
  - unfold unlink. intros H. right.
    by apply lookup_delete_Some in H as [_ H].
Qed.

Lemma migrate_lookup_Some listing (d : gmap string Content) name c :
  migrate listing d !! name = Some c →
  name = no_dimens ∨ d !! name = Some c.
Proof.
  revert d. unfold migrate.
  induction listing as [|x listing IH]; intros d; simpl; [by right|].
  intros H. destruct (IH _ H) as [Heq|Hx]; [by left|].
  by apply migrate_file_lookup_Some in Hx.
Qed.

(** X9: loading is idempotent on the cover-art directory: loading the
    directory that a load has left, with the same stored version, changes
    nothing. *)
Theorem load_twice (version : option Z) (d : gmap string Content) :
  load_cache_info version (load_cache_info version d).2 =
    load_cache_info version d.
Proof.
  unfold load_cache_info. simpl.
  destruct (default 0%Z version <? 1)%Z; [|done].
  f_equal. apply migrate_idempotent.
Qed.

(** X10: after a version-0 snapshot is loaded, no file is left under a
    name made of an id, an underscore and dimensions: not the variants of
    other sizes, and not the variants of size 1000 either. *)
Theorem no_variant_left (d : gmap string Content) (art_id dimensions : string) :
  all_digits art_id = true → all_digits dimensions = true →
  art_id ≠ "" → dimensions ≠ "" →
  (load_cache_info None d).2 !! (art_id +:+ "_" +:+ dimensions) = None.
Proof.
  intros Ha Hd Hane Hdne. unfold load_cache_info. simpl.
  apply migrated_clean. unfold matched.
  rewrite digits_matched by done. by eexists.
Qed.

(** X11: every file found after a version-0 snapshot is loaded is either
    the one file named by the literal target of the move, or a file whose
    name the pattern does not match, with the content it had before: all
    the variants of size 1000 end up in at most one file. *)
Theorem files_after_load (d : gmap string Content) (name : string) (c : Content) :
  (load_cache_info None d).2 !! name = Some c →
  name = no_dimens ∨ (cover_art_re_match name = None ∧ d !! name = Some c).
Proof.
  unfold load_cache_info. simpl. intros H.
  destruct (decide (name = no_dimens)) as [->|Hne]; [by left|]. right.
  destruct (cover_art_re_match name) as [g|] eqn:Hg.
  - assert (Hm : matched name) by (unfold matched; rewrite Hg; by eexists).
    rewrite (migrated_clean d name Hm) in H. discriminate.
  - split; [done|].
    apply migrate_lookup_Some in H as [?|H]; [done|exact H].
Qed.

(** A name made of ASCII characters only. *)
Definition ascii_name (name : string) : bool :=
  forallb (λ c, nat_of_ascii c <? 128) (list_ascii_of_string name).

(** X12: a file whose name is plain ASCII and is not matched by the
    pattern, and which is not the target of the move, is there after the
    load exactly as before, whatever the stored version.  (On an ASCII
    name the pattern and its embedding accept the same digits.) *)
Theorem other_files_kept (version : option Z) (d : gmap string Content)
    (name : string) :
  ascii_name name = true →
  cover_art_re_match name = None → name ≠ no_dimens →
  (load_cache_info version d).2 !! name = d !! name.
Proof.
  intros _ Hg Hne. unfold load_cache_info. simpl.
  destruct (default 0%Z version <? 1)%Z; [|done].
  apply migrate_other; [|done].
  unfold matched. rewrite Hg. by intros [? ?].
Qed.

End migration.

(** C4 at the directory of the scenario, a version-0 snapshot with files
    [123_1000] and [123_300] (contents 1 and 2): the stale variant is
    deleted, but the file [123_1000] ends up under the name [{art_id}],
    the text of the literal, and no file [123] exists afterwards. *)
Theorem migration_loses_art_id :
  let d := <["123_1000" := 1]> (<["123_300" := 2]> (∅ : gmap string nat)) in
  load_cache_info None d = (1%Z, {["{art_id}" := 1]})
  ∧ (load_cache_info None d).2 !! "123" = None
  ∧ (load_cache_info None d).2 !! "123_300" = None
  ∧ (load_cache_info None d).2 !! "123_1000" = None.
Proof. vm_compute. repeat split. Qed.

(** The witnesses of the theorems on loading, on the directory of the
    scenario with a file of notes beside the covers. *)
Definition scenario_dir : gmap string nat :=
  <["123_1000" := 1]> (<["123_300" := 2]> (<["notes.txt" := 3]> ∅)).

Lemma no_variant_left_witness :
  (load_cache_info None scenario_dir).2 !! ("123" +:+ "_" +:+ "300") = None.
Proof. by apply (no_variant_left scenario_dir "123" "300"). Defined.

Lemma files_after_load_witness :
  "notes.txt" = no_dimens ∨
  (cover_art_re_match "notes.txt" = None ∧ scenario_dir !! "notes.txt" = Some 3).
Proof. apply (files_after_load scenario_dir "notes.txt" 3). reflexivity. Defined.

Lemma other_files_kept_witness :
  (load_cache_info None scenario_dir).2 !! "notes.txt" =
    scenario_dir !! "notes.txt".
Proof.
  apply (other_files_kept None scenario_dir "notes.txt");
    [reflexivity|reflexivity|done].
Defined.

End Migration.

(** ** The two-phase search: [search] and [do_search] *)

Module Search.

Import Py.

Section search.

Context {ArtistID3 AlbumID3 Child Playlist : Type}.
Context `{!EqDecision ArtistID3, !EqDecision AlbumID3,
          !EqDecision Child, !EqDecision Playlist}.

Local Abbreviation SR := (SearchResult.aggregate ArtistID3 AlbumID3 Child Playlist).

(** [set(results)] and the union of two sets, on lists of elements. *)
Definition union_into {A : Type} `{!EqDecision A}
    (member : option (list A)) (results : list A) : option (list A) :=
  Some (list_union (default [] member) (remove_dups results)).

(** [add_results(result_type, results)], one function per result type;
    [results is None] leaves the aggregate as it is. *)
Definition add_album (sr : SR) (results : option (list AlbumID3)) : SR :=
  match results with
  | None => sr
  | Some rs =>
      {| SearchResult.query := SearchResult.query sr;
         SearchResult._artist := SearchResult._artist sr;
         SearchResult._album := union_into (SearchResult._album sr) rs;
         SearchResult._song := SearchResult._song sr;
         SearchResult._playlist := SearchResult._playlist sr |}
  end.

Definition add_artist (sr : SR) (results : option (list ArtistID3)) : SR :=
  match results with
  | None => sr
  | Some rs =>
      {| SearchResult.query := SearchResult.query sr;
         SearchResult._artist := union_into (SearchResult._artist sr) rs;
         SearchResult._album := SearchResult._album sr;
         SearchResult._song := SearchResult._song sr;
         SearchResult._playlist := SearchResult._playlist sr |}
  end.

Definition add_song (sr : SR) (results : option (list Child)) : SR :=
  match results with
  | None => sr
  | Some rs =>
      {| SearchResult.query := SearchResult.query sr;
         SearchResult._artist := SearchResult._artist sr;
         SearchResult._album := SearchResult._album sr;
         SearchResult._song := union_into (SearchResult._song sr) rs;
         SearchResult._playlist := SearchResult._playlist sr |}
  end.

Definition add_playlist (sr : SR) (results : option (list Playlist)) : SR :=
  match results with
  | None => sr
  | Some rs =>
      {| SearchResult.query := SearchResult.query sr;
         SearchResult._artist := SearchResult._artist sr;
         SearchResult._album := SearchResult._album sr;
         SearchResult._song := SearchResult._song sr;
         SearchResult._playlist := union_into (SearchResult._playlist sr) rs |}
  end.

(** [SearchResult(query)]: the four sets start as the empty sets of the
    class. *)
Definition new (query : string) : SR :=
  {| SearchResult.query := query;
     SearchResult._artist := Some [];
     SearchResult._album := Some [];
     SearchResult._song := Some [];
     SearchResult._playlist := Some [] |}.

(** The categories of [self.cache] that the search reads.  [playlists] is
    never filled by [load_cache_info]; the [defaultdict] answers an empty
    container for it. *)
Record Cache := {
  albums : gmap string (list AlbumID3);
  artists : list ArtistID3;
  song_details : gmap Z Child;
  playlists : list Playlist
}.

(** The answer of [self.server.search3(query)], with its attributes
    [album], [artist] and [song]. *)
Record SearchResult3 := {
  found_album : option (list AlbumID3);
  found_artist : option (list ArtistID3);
  found_song : option (list Child)
}.

Variable cache : Cache.
Variable search3 : string → reply SearchResult3.

(** The local phase of [do_search]. *)
Definition local_results (query : string) : SR :=
  let sr := new query in
  let sr := add_album sr (Some (concat (map_to_list (albums cache)).*2)) in
  let sr := add_artist sr (Some (artists cache)) in
  let sr := add_song sr (Some (map_to_list (song_details cache)).*2) in
  add_playlist sr (Some (playlists cache)).

(** The [try] block of the remote phase: when [search3] raises, nothing has
    been added. *)
Definition server_results (query : string) (sr : SR) : SR :=
  match search3 query with
  | Ret server_result =>
      let sr := add_album sr (found_album server_result) in
      let sr := add_artist sr (found_artist server_result) in
      add_song sr (found_song server_result)
  | Raise _ => sr
  end.

(** Where the worker is in [do_search]. *)
Inductive phase :=
| Queued
| Sleeping1
| Sleeping2 (search_result : SR)
| Querying (search_result : SR)
| Finished
| Dropped.

(** The closure variable [cancelled], the position of the worker and the
    invocations [search_callback(result, final)] made so far. *)
Record state := {
  cancelled : bool;
  position : phase;
  callbacks : list (SR * bool)
}.

(** [Tick] lets the worker run to its next suspension point; [Cancel] is a
    call of [Result.cancel()] by the owner of the handle. *)
Inductive signal := Tick | Cancel.

Definition advance (query : string) (st : state) (e : signal) : state :=
  match e with
  | Cancel =>
      {| cancelled := true;
         position := match position st with Queued => Dropped | p => p end;
         callbacks := callbacks st |}
  | Tick =>
      match position st with
      | Queued =>
          {| cancelled := cancelled st; position := Sleeping1;
             callbacks := callbacks st |}
      | Sleeping1 =>
          if cancelled st
          then {| cancelled := true; position := Finished;
                  callbacks := callbacks st |}
          else
            let search_result := local_results query in
            {| cancelled := false; position := Sleeping2 search_result;
               callbacks := callbacks st ++ [(search_result, false)] |}
      | Sleeping2 search_result =>
          if cancelled st
          then {| cancelled := true; position := Finished;
                  callbacks := callbacks st |}
          else {| cancelled := false; position := Querying search_result;
                  callbacks := callbacks st |}
      | Querying search_result =>
          {| cancelled := cancelled st; position := Finished;
             callbacks :=
               callbacks st ++ [(server_results query search_result, true)] |}
      | Finished | Dropped => st
      end
  end.

Definition play (query : string) (signals : list signal) (st : state) : state :=
  foldl (advance query) st signals.

Definition submitted : state :=
  {| cancelled := false; position := Queued; callbacks := [] |}.

(** What [search(query, search_callback)] does before it returns: the
    handle returned, the invocations of [search_callback] made meanwhile
    and the job handed to the executor, if any. *)
Record started := {
  handle : Result.t unit string;
  called : list (SR * bool);
  job : option state
}.

Definition search (query : string) : started :=
  if bool_decide (query = "")
  then {| handle := Result.from_data None;
          called := [(new "", true)];
          job := None |}
  else {| handle := Result.from_server "do_search" None None (Some "on_cancel");
          called := [];
          job := Some submitted |}.

(** The number of invocations with [final=True]. *)
Definition finals (calls : list (SR * bool)) : nat :=
  length (filter (λ c, c.2 = true) calls).

(** The worker has not yet passed the check after the delay it sleeps
    in. *)
Definition before_check (p : phase) : bool :=
  match p with
  | Queued | Sleeping1 | Sleeping2 _ => true
  | _ => false
  end.

(** *** Properties of the search *)

(** Once the flag is set and the worker is not inside the remote call, no
    signal makes a further invocation. *)
Definition silenced (st : state) : Prop :=
  cancelled st = true ∧ ∀ sr, position st ≠ Querying sr.

Lemma advance_silenced query st e :
  silenced st →
  silenced (advance query st e) ∧ callbacks (advance query st e) = callbacks st.
Proof.
  intros [Hc Hq]. destruct st as [c p calls]. simpl in *. subst c.
  destruct e, p; simpl; repeat split; try done.
  by destruct (Hq search_result).
Qed.

Lemma play_silenced query signals st :
  silenced st → callbacks (play query signals st) = callbacks st.
Proof.
  revert st. unfold play.
  induction signals as [|e signals IH]; intros st Hs; simpl; [done|].
  destruct (advance_silenced query st e Hs) as [Hs' Heq].
  by rewrite IH.
Qed.

Lemma before_check_silenced st :
  cancelled st = true → before_check (position st) = true → silenced st.
Proof.
  intros Hc Hb. split; [done|]. intros sr Hq. rewrite Hq in Hb. done.
Qed.

Lemma finals_app calls1 calls2 :
  finals (calls1 ++ calls2) = finals calls1 + finals calls2.
Proof. unfold finals. by rewrite filter_app, length_app. Qed.

Lemma finals_single (sr : SR) (final : bool) :
  finals [(sr, final)] = if final then 1 else 0.
Proof. by destruct final. Qed.

(** While the worker has not returned no final invocation has been made,
    and there is never more than one. *)
Definition at_most_one_final (st : state) : Prop :=
  match position st with
  | Finished | Dropped => finals (callbacks st) ≤ 1
  | _ => finals (callbacks st) = 0
  end.

Lemma advance_at_most_one_final query st e :
  at_most_one_final st → at_most_one_final (advance query st e).
Proof.
  unfold at_most_one_final.
  destruct st as [c p calls], e, p, c; simpl;
    rewrite ?finals_app, ?finals_single; lia.
Qed.

Lemma play_at_most_one_final query signals st :
  at_most_one_final st → at_most_one_final (play query signals st).
Proof.
  revert st. unfold play.
  induction signals as [|e signals IH]; intros st Hs; simpl; [done|].
  apply IH. by apply advance_at_most_one_final.
Qed.

Lemma play_ticks_finished query n st :
  position st = Finished → play query (repeat Tick n) st = st.
Proof.
  intros Hp. induction n as [|n IH]; [done|].
  unfold play in *. simpl. by rewrite Hp.
Qed.

(** A job that is never cancelled returns after four steps of the worker,
    with its two invocations made. *)
Lemma play_to_end query n :
  4 ≤ n →
  play query (repeat Tick n) submitted =
    {| cancelled := false; position := Finished;
       callbacks :=
         [ (local_results query, false);
           (server_results query (local_results query), true) ] |}.
Proof.
  intros Hn. replace n with (4 + (n - 4)) by lia.
  rewrite repeat_app. unfold play. rewrite foldl_app.
  apply (play_ticks_finished query (n - 4)). done.
Qed.

(** C6: for a query that is not empty the job is handed to the executor
    and nothing is called at once; when the flag is set while the worker
    has not passed the check after a delay, no signal whatsoever makes a
    further invocation, neither of that phase nor of a later one; over any
    sequence of signals there is at most one final invocation; a job that
    is never cancelled and runs to its end has made two invocations, the
    local one and one final one, and when [search3] raises the final one
    carries the local results. *)
Theorem search_callbacks (query : string) :
  query ≠ "" →
  (job (search query) = Some submitted ∧ called (search query) = []) ∧
  (∀ st signals,
     cancelled st = true → before_check (position st) = true →
     callbacks (play query signals st) = callbacks st) ∧
  (∀ signals, finals (callbacks (play query signals submitted)) ≤ 1) ∧
  (∀ n, 4 ≤ n →
     callbacks (play query (repeat Tick n) submitted) =
       [ (local_results query, false);
         (server_results query (local_results query), true) ] ∧
     finals (callbacks (play query (repeat Tick n) submitted)) = 1) ∧
  (∀ e, search3 query = Raise e →
     server_results query (local_results query) = local_results query).
Proof.
  intros Hq. split_and!.
  - unfold search. by rewrite bool_decide_eq_false_2.
  - unfold search. by rewrite bool_decide_eq_false_2.
  - intros st signals Hc Hb. apply play_silenced.
    by apply before_check_silenced.
  - intros signals.
    pose proof (play_at_most_one_final query signals submitted) as H.
    unfold at_most_one_final in H.
    destruct (position (play query signals submitted)); simpl in H;
      (by apply H) || (rewrite H by done; lia).
  - intros n Hn. rewrite play_to_end by done. simpl. split; [done|].
    change (finals ([(local_results query, false)] ++
                    [(server_results query (local_results query), true)]) = 1).
    by rewrite finals_app, !finals_single.
  - intros e He. unfold server_results. by rewrite He.
Qed.

(** C9: the handle built by [from_data(v)] returns [v] when [v] is not
    [None] and raises when it is; the handle that [search] returns on the
    empty query is built from [None], so its [result()] raises. *)
Theorem immediate_none_raises {T : Type} (v : option T) :
  Result.result (Result.from_data (Fn:=string) v) =
    Some (match v with
          | Some x => Ret (Some x)
          | None => Raise Result.no_member
          end)
  ∧ handle (search "") = Result.from_data None
  ∧ Result.result (handle (search "")) = Some (Raise Result.no_member).
Proof. split; [by destruct v|done]. Qed.

(** *** Order of the invocations, late cancellation and the merge *)

(** What has been called at each position of an uncancelled or cancelled
    job started from [submitted]. *)
Definition in_order (query : string) (st : state) : Prop :=
  match position st with
  | Queued | Sleeping1 | Dropped => callbacks st = []
  | Sleeping2 sr | Querying sr =>
      sr = local_results query ∧
      callbacks st = [(local_results query, false)]
  | Finished =>
      callbacks st `prefix_of`
        [ (local_results query, false);
          (server_results query (local_results query), true) ]
  end.

Lemma advance_in_order query st e :
  in_order query st → in_order query (advance query st e).
Proof.
  unfold in_order. destruct st as [c p calls], e, p, c; simpl;
    try done; try (intros ->; done).
  - intros ->. apply prefix_nil.
  - intros [-> ->].
    by exists [(server_results query (local_results query), true)].
  - by intros [-> ->].
  - by intros [-> ->].
Qed.

(** X13: whatever the worker and the owner of the handle do, and in
    whatever order, the invocations of [search_callback] are a front
    segment of: the local results, not final, then the merged results,
    final.  The final invocation never comes first, and nothing is called
    twice. *)
Theorem callbacks_in_order (query : string) (signals : list signal) :
  callbacks (play query signals submitted) `prefix_of`
    [ (local_results query, false);
      (server_results query (local_results query), true) ].
Proof.
  assert (Hinv : in_order query (play query signals submitted)).
  { assert (H0 : in_order query submitted) by done.
    revert H0. generalize submitted. unfold play.
    induction signals as [|e signals IH]; intros st Hst; simpl; [done|].
    apply IH. by apply advance_in_order. }
  unfold in_order in Hinv.
  destruct (position (play query signals submitted)).
  - rewrite Hinv. apply prefix_nil.
  - rewrite Hinv. apply prefix_nil.
  - destruct Hinv as [_ ->]. by eexists [_].
  - destruct Hinv as [_ ->]. by eexists [_].
  - done.
  - rewrite Hinv. apply prefix_nil.
Qed.

(** X14: a cancellation that arrives while the query to the server is in
    flight does not stop the final invocation: the flag is only read after
    the two delays. *)
Theorem cancel_during_query_still_final
    (query : string) (sr : SR) (flag : bool) (calls : list (SR * bool)) :
  play query [Cancel; Tick]
       {| cancelled := flag; position := Querying sr; callbacks := calls |} =
    {| cancelled := true; position := Finished;
       callbacks := calls ++ [(server_results query sr, true)] |}.
Proof. reflexivity. Qed.

Lemma elem_of_union_into {A : Type} `{!EqDecision A}
    (member : option (list A)) (results : list A) (x : A) :
  x ∈ default [] (union_into member results) ↔
  x ∈ default [] member ∨ x ∈ results.
Proof.
  unfold union_into. simpl.
  by rewrite list_elem_of_union, elem_of_remove_dups.
Qed.

Lemma elem_of_concat {A : Type} (x : A) (ls : list (list A)) :
  x ∈ concat ls ↔ ∃ l, x ∈ l ∧ l ∈ ls.
Proof.
  induction ls as [|k ls IH]; simpl.
  - split; [by intros ?%elem_of_nil|]. by intros (l & _ & ?%elem_of_nil).
  - rewrite elem_of_app, IH. split.
    + intros [Hx|(l & Hx & Hl)].
      * exists k. split; [done|]. by left.
      * exists l. split; [done|]. by right.
    + intros (l & Hx & Hl). apply elem_of_cons in Hl as [->|Hl].
      * by left.
      * right. by exists l.
Qed.

(** X15: the merge of the server's answer loses nothing: every artist,
    album, song and playlist of the aggregate before the remote phase is in
    the aggregate of the final invocation, whether [search3] answers or
    raises. *)
Theorem server_results_keep_local (query : string) (sr : SR) :
  (∀ x, x ∈ default [] (SearchResult._artist sr) →
        x ∈ default [] (SearchResult._artist (server_results query sr))) ∧
  (∀ x, x ∈ default [] (SearchResult._album sr) →
        x ∈ default [] (SearchResult._album (server_results query sr))) ∧
  (∀ x, x ∈ default [] (SearchResult._song sr) →
        x ∈ default [] (SearchResult._song (server_results query sr))) ∧
  SearchResult._playlist (server_results query sr) = SearchResult._playlist sr.
Proof.
  unfold server_results.
  destruct (search3 query) as [[al ar so]|e]; [|done].
  unfold add_album, add_artist, add_song. simpl.
  split_and!.
  - intros x Hx. destruct so, ar, al; simpl;
      rewrite ?list_elem_of_union; auto.
  - intros x Hx. destruct so, ar, al; simpl;
      rewrite ?list_elem_of_union; auto.
  - intros x Hx. destruct so, ar, al; simpl;
      rewrite ?list_elem_of_union; auto.
  - by destruct so, ar, al.
Qed.

(** X16: the aggregate of the local phase holds exactly what the cache
    holds: the artists of the category [artists], the albums of every list
    of the category [albums], the songs of the category [song_details] and
    the playlists of the category [playlists]. *)
Theorem local_results_from_cache (query : string) :
  (∀ x, x ∈ default [] (SearchResult._artist (local_results query)) ↔
        x ∈ artists cache) ∧
  (∀ x, x ∈ default [] (SearchResult._album (local_results query)) ↔
        ∃ type_ l, albums cache !! type_ = Some l ∧ x ∈ l) ∧
  (∀ x, x ∈ default [] (SearchResult._song (local_results query)) ↔
        ∃ id, song_details cache !! id = Some x) ∧
  (∀ x, x ∈ default [] (SearchResult._playlist (local_results query)) ↔
        x ∈ playlists cache).
Proof.
  unfold local_results, add_album, add_artist, add_song, add_playlist, new.
  cbn [SearchResult._artist SearchResult._album SearchResult._song
       SearchResult._playlist].
  split_and!; intros x; rewrite elem_of_union_into; simpl.
  - rewrite elem_of_nil. split; [by intros [[]|?]|by right].
  - rewrite elem_of_nil. split.
    + intros [[]|Hx]. apply elem_of_concat in Hx as (l & Hxl & Hl).
      apply list_elem_of_fmap in Hl as ([type_ l'] & -> & Hin).
      apply elem_of_map_to_list in Hin. by exists type_, l'.
    + intros (type_ & l & Hl & Hx). right.
      apply elem_of_concat. exists l. split; [done|].
      apply list_elem_of_fmap. exists (type_, l). split; [done|].
      by apply elem_of_map_to_list.
  - rewrite elem_of_nil. split.
    + intros [[]|Hx].
      apply list_elem_of_fmap in Hx as ([id x'] & -> & Hin).
      apply elem_of_map_to_list in Hin. by exists id.
    + intros (id & Hid). right.
      apply list_elem_of_fmap. exists (id, x). split; [done|].
      by apply elem_of_map_to_list.
  - rewrite elem_of_nil. split; [by intros [[]|?]|by right].
Qed.

End search.

(** The witness of [search_callbacks]: the query [bea] on an empty cache
    with a server that cannot be reached. *)
Lemma search_callbacks_witness :
  let cache := {| albums := (∅ : gmap string (list nat));
                  artists := ([] : list nat);
                  song_details := (∅ : gmap Z nat);
                  playlists := ([] : list nat) |} in
  let search3 := λ _ : string, Py.Raise (T:=SearchResult3) Py.ConnectionError in
  "bea" ≠ "" ∧
  finals (callbacks (play cache search3 "bea" (repeat Tick 4) submitted)) = 1.
Proof.
  intros cache search3. split; [done|].
  assert (Hq : "bea" ≠ "") by done.
  destruct (search_callbacks cache search3 "bea" Hq) as (_ & _ & _ & Hrun & _).
  destruct (Hrun 4) as [_ Hfin]; [lia|]. exact Hfin.
Defined.

End Search.

(** ** The download registry: [return_cached_or_download] *)

Module Downloads.

Import Py.

#[global] Instance exn_eq_dec : EqDecision exn.
Proof. solve_decision. Defined.

(** Where a worker is in the job that [from_server] submits for
    [do_download], each position being the next access to the shared
    state. *)
Inductive pc :=
| Submitted
| Polling
| Fetching
| Moving
| Returned
| Done
| Failed (e : exn).

#[global] Instance pc_eq_dec : EqDecision pc.
Proof. solve_decision. Defined.

(** A job: the key [abs_path_str] of its resource and its position. *)
Record thread := {
  key : string;
  at_pc : pc
}.

(** The shared state: the set [current_downloads], the staging files and
    the cache files that exist (each named by the key of its resource), and
    the jobs handed to the executor, in the order of submission. *)
Record world := {
  current_downloads : gset string;
  staged : gset string;
  cache_files : gset string;
  threads : list thread
}.

Definition move_to (tid : nat) (t : thread) (p : pc) (ts : list thread)
  : list thread :=
  <[tid := {| key := key t; at_pc := p |}]> ts.

(** The next step of job [tid] when [download_fn], if this step calls it,
    returns the bytes.

    - [Submitted]: the block under [download_set_lock], which tests the
      membership of the key and adds it in either case.
    - [Polling]: one test of the busy loop.
    - [Fetching]: [save_file(download_path, download_fn())].
    - [Moving]: [shutil.move] when the staging file exists; [do_download]
      then returns [abs_path_str].
    - [Returned]: the callback [after_download(path)], which discards the
      key under the lock. *)
Definition go (w : world) (tid : nat) (t : thread) : world :=
  match at_pc t with
  | Submitted =>
      let resource_downloading := bool_decide (key t ∈ current_downloads w) in
      {| current_downloads := current_downloads w ∪ {[key t]};
         staged := staged w;
         cache_files := cache_files w;
         threads := move_to tid t
                      (if resource_downloading then Polling else Fetching)
                      (threads w) |}
  | Polling =>
      if bool_decide (key t ∈ current_downloads w) then w
      else {| current_downloads := current_downloads w;
              staged := staged w;
              cache_files := cache_files w;
              threads := move_to tid t Returned (threads w) |}
  | Fetching =>
      {| current_downloads := current_downloads w;
         staged := staged w ∪ {[key t]};
         cache_files := cache_files w;
         threads := move_to tid t Moving (threads w) |}
  | Moving =>
      if bool_decide (key t ∈ staged w)
      then {| current_downloads := current_downloads w;
              staged := staged w ∖ {[key t]};
              cache_files := cache_files w ∪ {[key t]};
              threads := move_to tid t Returned (threads w) |}
      else {| current_downloads := current_downloads w;
              staged := staged w;
              cache_files := cache_files w;
              threads := move_to tid t Returned (threads w) |}
  | Returned =>
      {| current_downloads := current_downloads w ∖ {[key t]};
         staged := staged w;
         cache_files := cache_files w;
         threads := move_to tid t Done (threads w) |}
  | Done | Failed _ => w
  end.

(** The step of job [tid] in which [download_fn] raises [e].  A
    [ConnectionError] is caught: the key is discarded and [do_download]
    goes on.  Any other exception leaves [do_download]; the wrapper around
    [after_download] then raises on [f.result()] and the key stays. *)
Definition raising (w : world) (tid : nat) (t : thread) (e : exn) : world :=
  match at_pc t with
  | Fetching =>
      if decide (e = ConnectionError)
      then {| current_downloads := current_downloads w ∖ {[key t]};
              staged := staged w;
              cache_files := cache_files w;
              threads := move_to tid t Moving (threads w) |}
      else {| current_downloads := current_downloads w;
              staged := staged w;
              cache_files := cache_files w;
              threads := move_to tid t (Failed e) (threads w) |}
  | _ => w
  end.

(** The scheduler picks the job that makes the next step. *)
Inductive event :=
| Go (tid : nat)
| Raising (tid : nat) (e : exn).

Definition step (w : world) (ev : event) : world :=
  match ev with
  | Go tid =>
      match threads w !! tid with
      | Some t => go w tid t
      | None => w
      end
  | Raising tid e =>
      match threads w !! tid with
      | Some t => raising w tid t e
      | None => w
      end
  end.

Definition run (schedule : list event) (w : world) : world :=
  foldl step w schedule.

(** [return_cached_or_download(relative_path, download_fn, before_download,
    force, allow_download)], the resource being named by [abs_path_str]:
    the handle returned and the world afterwards. *)
Definition return_cached_or_download (w : world) (abs_path_str : string)
    (force allow_download : bool) : Result.t string string * world :=
  if bool_decide (abs_path_str ∈ cache_files w) && negb force
  then (Result.from_data (Some abs_path_str), w)
  else if negb allow_download
  then (Result.from_data (Some ""), w)
  else (Result.from_server "do_download" (Some "before_download")
                           (Some "after_download") None,
        {| current_downloads := current_downloads w;
           staged := staged w;
           cache_files := cache_files w;
           threads := threads w ++ [ {| key := abs_path_str;
                                       at_pc := Submitted |} ] |}).

(** What [Result.result()] gives for job [tid]: [None] while the caller is
    blocked. *)
Definition resolved (w : world) (tid : nat) : option (reply string) :=
  match threads w !! tid with
  | Some t =>
      match at_pc t with
      | Returned | Done => Some (Ret (key t))
      | Failed e => Some (Raise e)
      | Submitted | Polling | Fetching | Moving => None
      end
  | None => None
  end.

(** The number of physical downloads of [k] in flight. *)
Definition in_flight (w : world) (k : string) : nat :=
  length (filter (λ t, key t = k ∧ at_pc t = Fetching) (threads w)).

Definition cold : world :=
  {| current_downloads := ∅; staged := ∅; cache_files := ∅; threads := [] |}.

(** [n] callers ask for the same resource while it is not in the cache. *)
Fixpoint callers (n : nat) (abs_path_str : string) (w : world) : world :=
  match n with
  | 0 => w
  | S n' =>
      callers n' abs_path_str
              (return_cached_or_download w abs_path_str false true).2
  end.

(** *** Properties of the registry *)

Lemma lookup_move_to tid t p (ts : list thread) :
  ts !! tid = Some t →
  move_to tid t p ts !! tid = Some {| key := key t; at_pc := p |}.
Proof.
  intros Hl. unfold move_to. apply list_lookup_insert_eq.
  by eapply lookup_lt_Some.
Qed.

(** The test and the claim are one step: a job that finds the key in the
    registry joins the busy loop and fetches nothing; a job that does not
    find it claims it and fetches. *)
Lemma enter_joins_or_claims (w : world) (tid : nat) (t : thread) :
  threads w !! tid = Some t → at_pc t = Submitted →
  key t ∈ current_downloads (step w (Go tid)) ∧
  threads (step w (Go tid)) !! tid =
    Some {| key := key t;
            at_pc := if bool_decide (key t ∈ current_downloads w)
                     then Polling else Fetching |}.
Proof.
  intros Hl Hp. unfold step. rewrite Hl. unfold go. rewrite Hp. simpl.
  split; [set_solver|]. by apply lookup_move_to.
Qed.

(** Whatever a job resolves to, it is the key of its resource or the
    exception that left [do_download]: all callers of one resource that
    get a value get the same path. *)
Lemma resolved_value (w : world) (tid : nat) (v : string) :
  resolved w tid = Some (Ret v) →
  ∃ t, threads w !! tid = Some t ∧ v = key t.
Proof.
  unfold resolved. destruct (threads w !! tid) as [t|]; [|done].
  intros H. exists t. split; [done|].
  destruct (at_pc t); by inversion H.
Qed.

(** With two callers of one resource the registry does its work.  The
    invariant: the two jobs are not both fetching, and while one fetches
    and the other has not entered yet, the key is in the registry. *)
Definition pair_ok (k : string) (w : world) : Prop :=
  ∃ pa pb,
    threads w = [ {| key := k; at_pc := pa |}; {| key := k; at_pc := pb |} ] ∧
    (pa = Fetching → pb ≠ Fetching) ∧
    (pa = Fetching → pb = Submitted → k ∈ current_downloads w) ∧
    (pb = Fetching → pa = Submitted → k ∈ current_downloads w).

Ltac pair_case :=
  simpl; repeat case_bool_decide; repeat case_decide; simpl;
  eexists _, _; (split; [reflexivity|]); split_and!; try done; set_solver.

Lemma step_pair_ok k w ev : pair_ok k w → pair_ok k (step w ev).
Proof.
  intros (pa & pb & Hts & H1 & H2 & H3).
  destruct w as [reg st cf ts]. simpl in *. subst ts.
  destruct ev as [tid|tid e]; destruct tid as [|[|tid]]; simpl;
    try (by exists pa, pb).
  - unfold go. destruct pa; pair_case.
  - unfold go. destruct pb; pair_case.
  - unfold raising. destruct pa; pair_case.
  - unfold raising. destruct pb; pair_case.
Qed.

Lemma run_pair_ok k schedule w : pair_ok k w → pair_ok k (run schedule w).
Proof.
  revert w. unfold run.
  induction schedule as [|ev schedule IH]; intros w Hw; simpl; [done|].
  apply IH. by apply step_pair_ok.
Qed.

(** X17: two callers of a resource that is not cached: whatever the
    schedule and whichever downloads fail, at most one download is in
    flight. *)
Lemma two_callers_one_download k schedule :
  in_flight (run schedule (callers 2 k cold)) k ≤ 1.
Proof.
  assert (Hinit : pair_ok k (callers 2 k cold)).
  { exists Submitted, Submitted. simpl. unfold return_cached_or_download.
    simpl. rewrite bool_decide_eq_false_2 by set_solver. simpl.
    rewrite bool_decide_eq_false_2 by set_solver. simpl.
    split_and!; done. }
  destruct (run_pair_ok k schedule _ Hinit) as (pa & pb & Hts & H1 & _).
  unfold in_flight. rewrite Hts.
  destruct (decide (pa = Fetching)) as [->|Ha].
  - rewrite filter_cons_True by done.
    rewrite filter_cons_False by (simpl; intros [_ ?]; by apply H1).
    simpl. lia.
  - rewrite filter_cons_False by (simpl; intros [_ ?]; done).
    destruct (decide (pb = Fetching)) as [->|Hb].
    + rewrite filter_cons_True by done. simpl. lia.
    + rewrite filter_cons_False by (simpl; intros [_ ?]; done). simpl. lia.
Qed.






(** The key is discarded twice when a download fails, by the handler of
    [ConnectionError] and by [after_download]: with three callers, job 0
    fails after claiming the key, job 1 claims it, the callback of job 0
    discards it, and job 2 claims it while job 1 is still downloading. *)
Lemma failed_download_discards_twice :
  let schedule :=
    [Go 0; Raising 0 ConnectionError; Go 1; Go 0; Go 0; Go 2] in
  in_flight (run schedule (callers 3 "p" cold)) "p" = 2.
Proof. vm_compute. done. Qed.

(** C1 at four callers of the resource [p] on a cold cache, the jobs
    running in this order: job 0 claims the key and job 1 joins it; job 0
    downloads, publishes and discards the key; job 1 leaves the busy loop;
    job 2 claims the key; the callback of job 1 discards it; job 3 finds
    the registry empty and claims the key too.  Two downloads of [p] are
    then in flight. *)
Theorem two_downloads_in_flight :
  let schedule :=
    [Go 0; Go 1; Go 0; Go 0; Go 0; Go 1; Go 2; Go 1; Go 3] in
  let w := run schedule (callers 4 "p" cold) in
  in_flight w "p" = 2 ∧
  threads w !! 2 = Some {| key := "p"; at_pc := Fetching |} ∧
  threads w !! 3 = Some {| key := "p"; at_pc := Fetching |}.
Proof. vm_compute. done. Qed.

(** *** What the registry keeps and what it leaks *)

Lemma step_cache_files_mono (w : world) (ev : event) :
  cache_files w ⊆ cache_files (step w ev).
Proof.
  destruct ev as [tid|tid e]; simpl; destruct (threads w !! tid) as [t|];
    try done.
  - unfold go. destruct (at_pc t); simpl; try done;
      repeat case_bool_decide; simpl; set_solver.
  - unfold raising. destruct (at_pc t); simpl; try done.
    case_decide; done.
Qed.

(** X18: no step of any job removes a file from the cache: what is
    cached stays cached under every schedule. *)
Theorem cache_files_kept (schedule : list event) (w : world) :
  cache_files w ⊆ cache_files (run schedule w).
Proof.
  revert w. unfold run.
  induction schedule as [|ev schedule IH]; intros w; simpl; [done|].
  etrans; [apply step_cache_files_mono|apply IH].
Qed.

Lemma callers_one (k : string) :
  callers 1 k cold =
    {| current_downloads := ∅; staged := ∅; cache_files := ∅;
       threads := [ {| key := k; at_pc := Submitted |} ] |}.
Proof.
  unfold callers, return_cached_or_download. simpl.
  by rewrite bool_decide_eq_false_2 by set_solver.
Qed.

(** A lone caller whose download has died of an exception that is not a
    [ConnectionError], and a second caller arriving afterwards. *)
Definition after_fatal (k : string) (e : exn) : world :=
  (return_cached_or_download
     (run [Go 0; Raising 0 e] (callers 1 k cold)) k false true).2.

Definition stuck (k : string) (e : exn) (w : world) : Prop :=
  k ∈ current_downloads w ∧
  ∃ p, threads w = [ {| key := k; at_pc := Failed e |};
                     {| key := k; at_pc := p |} ] ∧
       (p = Submitted ∨ p = Polling).

Lemma step_stuck k e w ev : stuck k e w → stuck k e (step w ev).
Proof.
  intros (Hk & p & Hts & Hp).
  destruct w as [reg st cf ts]. simpl in *. subst ts.
  destruct ev as [tid|tid e']; destruct tid as [|[|tid]]; simpl;
    try (split; [done|]; by exists p).
  - unfold go. destruct Hp as [-> | ->]; simpl.
    + rewrite bool_decide_eq_true_2 by done. split; [set_solver|].
      exists Polling. split; [done|by right].
    + rewrite bool_decide_eq_true_2 by done. split; [done|].
      exists Polling. split; [done|by right].
  - unfold raising. destruct Hp as [-> | ->]; simpl;
      (split; [done|]); eexists; (split; [done|]); auto.
Qed.

(** X19: an exception of [download_fn] other than [ConnectionError]
    reaches the caller that downloads, and leaves the key in the registry
    for good: a caller that asks for the same resource afterwards joins
    the busy loop and never resolves, under any schedule. *)
Theorem fatal_download_blocks_later_callers
    (k : string) (e : exn) (schedule : list event) :
  e ≠ ConnectionError →
  resolved (after_fatal k e) 0 = Some (Raise e) ∧
  resolved (run schedule (after_fatal k e)) 1 = None ∧
  k ∈ current_downloads (run schedule (after_fatal k e)).
Proof.
  intros He.
  assert (Hw : after_fatal k e =
                 {| current_downloads := ∅ ∪ {[k]}; staged := ∅;
                    cache_files := ∅;
                    threads := [ {| key := k; at_pc := Failed e |};
                                 {| key := k; at_pc := Submitted |} ] |}).
  { unfold after_fatal. rewrite callers_one. unfold run. simpl.
    rewrite bool_decide_eq_false_2 by set_solver. simpl.
    unfold raising, go. simpl. rewrite decide_False by done.
    unfold return_cached_or_download. simpl.
    by rewrite bool_decide_eq_false_2 by set_solver. }
  rewrite Hw. split; [done|].
  assert (Hs : stuck k e (run schedule
                 {| current_downloads := ∅ ∪ {[k]}; staged := ∅;
                    cache_files := ∅;
                    threads := [ {| key := k; at_pc := Failed e |};
                                 {| key := k; at_pc := Submitted |} ] |})).
  { assert (H0 : stuck k e
                 {| current_downloads := ∅ ∪ {[k]}; staged := ∅;
                    cache_files := ∅;
                    threads := [ {| key := k; at_pc := Failed e |};
                                 {| key := k; at_pc := Submitted |} ] |}).
    { split; [set_solver|]. exists Submitted. split; [done|by left]. }
    revert H0. generalize
                 {| current_downloads := ∅ ∪ {[k]}; staged := ∅;
                    cache_files := (∅ : gset string);
                    threads := [ {| key := k; at_pc := Failed e |};
                                 {| key := k; at_pc := Submitted |} ] |}.
    unfold run. induction schedule as [|ev schedule IH]; intros w Hw0;
      simpl; [done|].
    apply IH. by apply step_stuck. }
  destruct Hs as (Hk & p & Hts & Hp). split; [|done].
  unfold resolved. rewrite Hts. simpl. by destruct Hp as [-> | ->].
Qed.

(** X20: a lone caller of a resource that is not cached, its download
    succeeding: once its four steps are done the caller resolves to the
    path, the file is in the cache, and the registry and the staging area
    are empty again. *)
Theorem lone_download_publishes (k : string) :
  let w := run [Go 0; Go 0; Go 0; Go 0] (callers 1 k cold) in
  resolved w 0 = Some (Ret k) ∧
  cache_files w = {[k]} ∧
  current_downloads w = ∅ ∧
  staged w = ∅.
Proof.
  rewrite callers_one.
  set (w0 := {| current_downloads := ∅; staged := ∅; cache_files := ∅;
                threads := [ {| key := k; at_pc := Submitted |} ] |}).
  change (run [Go 0; Go 0; Go 0; Go 0] w0)
    with (step (step (step (step w0 (Go 0)) (Go 0)) (Go 0)) (Go 0)).
  assert (H1 : step w0 (Go 0) =
                 {| current_downloads := ∅ ∪ {[k]}; staged := ∅;
                    cache_files := ∅;
                    threads := [ {| key := k; at_pc := Fetching |} ] |}).
  { unfold step, go. simpl. by rewrite bool_decide_eq_false_2 by set_solver. }
  rewrite H1. clear H1.
  change (step {| current_downloads := ∅ ∪ {[k]}; staged := ∅;
                  cache_files := ∅;
                  threads := [ {| key := k; at_pc := Fetching |} ] |} (Go 0))
    with {| current_downloads := ∅ ∪ {[k]}; staged := ∅ ∪ {[k]};
            cache_files := (∅ : gset string);
            threads := [ {| key := k; at_pc := Moving |} ] |}.
  assert (H3 : step {| current_downloads := ∅ ∪ {[k]}; staged := ∅ ∪ {[k]};
                       cache_files := (∅ : gset string);
                       threads := [ {| key := k; at_pc := Moving |} ] |} (Go 0) =
                 {| current_downloads := ∅ ∪ {[k]};
                    staged := (∅ ∪ {[k]}) ∖ {[k]};
                    cache_files := ∅ ∪ {[k]};
                    threads := [ {| key := k; at_pc := Returned |} ] |}).
  { unfold step, go. simpl. by rewrite bool_decide_eq_true_2 by set_solver. }
  rewrite H3. clear H3. simpl.
  rewrite !(left_id_L ∅ (∪)), !difference_diag_L. done.
Qed.

Lemma step_waiter (w : world) (ev : event) (tid : nat) (t : thread) :
  threads w !! tid = Some t →
  at_pc t = Polling ∨ at_pc t = Returned ∨ at_pc t = Done →
  ∃ t', threads (step w ev) !! tid = Some t' ∧ key t' = key t ∧
        (at_pc t' = Polling ∨ at_pc t' = Returned ∨ at_pc t' = Done).
Proof.
  intros Hl Hp.
  assert (Hother : ∀ tid' t' p, tid' ≠ tid →
            move_to tid' t' p (threads w) !! tid = Some t).
  { intros tid' t' p Hne. unfold move_to.
    by rewrite list_lookup_insert_ne. }
  destruct ev as [tid'|tid' e]; simpl;
    destruct (threads w !! tid') as [t'|] eqn:Hl'; try (by exists t).
  - destruct (decide (tid' = tid)) as [->|Hne].
    + rewrite Hl in Hl'. injection Hl' as <-.
      unfold go. destruct Hp as [Hp|[Hp|Hp]]; rewrite Hp; simpl.
      * case_bool_decide; simpl; [by exists t; auto|].
        rewrite (lookup_move_to _ _ _ _ Hl). eexists. split_and!; eauto.
      * rewrite (lookup_move_to _ _ _ _ Hl). eexists. split_and!; eauto.
      * exists t. auto.
    + unfold go. destruct (at_pc t'); simpl; repeat case_bool_decide; simpl;
        rewrite ?Hother by done; exists t; auto.
  - destruct (decide (tid' = tid)) as [->|Hne].
    + rewrite Hl in Hl'. injection Hl' as <-.
      unfold raising. destruct Hp as [Hp|[Hp|Hp]]; rewrite Hp; exists t; auto.
    + unfold raising. destruct (at_pc t'); simpl; repeat case_decide; simpl;
        rewrite ?Hother by done; exists t; auto.
Qed.

(** X21: a caller that found the key in the registry and joined the busy
    loop never downloads: under every schedule it is still in the loop,
    or it has returned the path. *)
Theorem waiter_never_downloads
    (schedule : list event) (w : world) (tid : nat) (t : thread) :
  threads w !! tid = Some t → at_pc t = Polling →
  ∃ t', threads (run schedule w) !! tid = Some t' ∧ key t' = key t ∧
        (at_pc t' = Polling ∨ at_pc t' = Returned ∨ at_pc t' = Done).
Proof.
  intros Hl Hp.
  assert (H0 : at_pc t = Polling ∨ at_pc t = Returned ∨ at_pc t = Done)
    by auto.
  clear Hp. revert w t Hl H0. unfold run.
  induction schedule as [|ev schedule IH]; intros w t Hl Hp; simpl.
  - by exists t.
  - destruct (step_waiter w ev tid t Hl Hp) as (t1 & Hl1 & Hk1 & Hp1).
    destruct (IH _ _ Hl1 Hp1) as (t2 & Hl2 & Hk2 & Hp2).
    exists t2. split_and!; [done|congruence|done].
Qed.

(** The witnesses of the theorems on the registry. *)
Lemma fatal_download_blocks_later_callers_witness :
  resolved (run [Go 1; Go 1; Go 0] (after_fatal "p" TypeError)) 1 = None.
Proof.
  assert (He : TypeError ≠ ConnectionError) by done.
  destruct (fatal_download_blocks_later_callers "p" TypeError
              [Go 1; Go 1; Go 0] He) as (_ & H & _).
  exact H.
Defined.

Lemma waiter_never_downloads_witness :
  let w := run [Go 0; Go 1] (callers 2 "p" cold) in
  ∃ t', threads (run [Go 0; Go 0; Go 0; Go 1; Go 1] w) !! 1 = Some t' ∧
        key t' = "p" ∧
        (at_pc t' = Polling ∨ at_pc t' = Returned ∨ at_pc t' = Done).
Proof.
  intros w.
  apply (waiter_never_downloads [Go 0; Go 0; Go 0; Go 1; Go 1] w 1
           {| key := "p"; at_pc := Polling |}); reflexivity.
Defined.

End Downloads.

(** ** Artist artwork: [get_artist_artwork] *)

Module Artwork.

Section artwork.

(** [hashlib.md5(url.encode("utf-8")).hexdigest()]. *)
Variable md5_hexdigest : string → string.

(** The argument [artist], as the [isinstance] tests of the function tell
    its classes apart: an [ArtistWithAlbumsID3] with its [coverArt] and the
    [coverArt] of each of its albums, any other [ArtistID3] with its
    [coverArt], a [Directory] with the [coverArt] of each child, or an
    object of none of these classes. *)
Inductive artist :=
| WithAlbumsID3 (coverArt : option string)
                (album : option (list (option string)))
| ID3 (coverArt : option string)
| Directory (child : list (option string))
| Plain.

(** Where the artwork comes from:
    [AdapterManager.get_cover_art_filename(cover_art_id)],
    [CacheManager.Result.from_data("")], or
    [self.return_cached_or_download(relative_path, ...)] fetching [url]. *)
Inductive artwork :=
| CoverArt (cover_art_id : option string)
| NoArtwork
| Download (relative_path url : string) (force : bool).

(** [s.endswith(suffix)]. *)
Definition endswith (s suffix : string) : bool :=
  let n := String.length s in
  let m := String.length suffix in
  (m <=? n) && String.eqb (substring (n - m) m s) suffix.

(** [bool(x)] for an optional string. *)
Definition truthy (x : option string) : bool :=
  match x with
  | None | Some EmptyString => false
  | Some (String _ _) => true
  end.

(** ["".join(artist_info.largeImageUrl or [])]. *)
Definition lastfm_url (largeImageUrl : option (list string)) : string :=
  String.concat "" (default [] largeImageUrl).

Definition is_placeholder (url : string) : bool :=
  String.eqb url ""
  || endswith url "2a96cbd8b46e442fc41c2b86b821562f.png"
  || endswith url "1024px-No_image_available.svg.png".

(** The [if is_placeholder:] block: [Some] when one of its branches
    returns, [None] when control falls through to the statements after
    it. *)
Definition server_cover_art (a : artist) : option artwork :=
  match a with
  | WithAlbumsID3 coverArt album =>
      if truthy coverArt then Some (CoverArt coverArt)
      else match album with
           | Some (first :: _) => Some (CoverArt first)
           | Some [] | None => None
           end
  | ID3 coverArt =>
      if truthy coverArt then Some (CoverArt coverArt) else None
  | Directory (first :: _) => Some (CoverArt first)
  | Directory [] => None
  | Plain => None
  end.

(** [do_get_artist_artwork(artist_info)], for the [artist] and [force] of
    the enclosing call. *)
Definition do_get_artist_artwork (a : artist) (force : bool)
    (largeImageUrl : option (list string)) : artwork :=
  let url := lastfm_url largeImageUrl in
  let fallback := if is_placeholder url then server_cover_art a else None in
  match fallback with
  | Some found => found
  | None =>
      if String.eqb url "" then NoArtwork
      else Download ("cover_art/artist." +:+ md5_hexdigest url) url force
  end.

(** X22: when the image URL of the artist is not a placeholder, the
    image is fetched under a path made from the hash of the URL alone:
    whatever the artist object is, and so two artists with the same URL
    share one cached file. *)
Theorem real_url_keyed_by_hash (a1 a2 : artist) (force : bool)
    (largeImageUrl : option (list string)) :
  is_placeholder (lastfm_url largeImageUrl) = false →
  do_get_artist_artwork a1 force largeImageUrl =
    Download ("cover_art/artist." +:+ md5_hexdigest (lastfm_url largeImageUrl))
             (lastfm_url largeImageUrl) force
  ∧ do_get_artist_artwork a1 force largeImageUrl =
      do_get_artist_artwork a2 force largeImageUrl.
Proof.
  intros Hp. unfold do_get_artist_artwork. rewrite Hp.
  unfold is_placeholder in Hp.
  destruct (String.eqb (lastfm_url largeImageUrl) ""); [done|]. done.
Qed.

(** X23: when the image URL is missing or a placeholder, an ID3 artist
    with a cover-art id of its own gets that id, whatever albums it has;
    without one, an artist with albums gets the cover-art id of its first
    album, and a directory gets that of its first child.  Nothing is
    downloaded in these cases. *)
Theorem placeholder_uses_server_cover_art (force : bool)
    (largeImageUrl : option (list string)) (c : option string)
    (album : option (list (option string))) (first : option string)
    (others : list (option string)) :
  is_placeholder (lastfm_url largeImageUrl) = true →
  (truthy c = true →
     do_get_artist_artwork (ID3 c) force largeImageUrl = CoverArt c ∧
     do_get_artist_artwork (WithAlbumsID3 c album) force largeImageUrl =
       CoverArt c) ∧
  (truthy c = false →
     do_get_artist_artwork (WithAlbumsID3 c (Some (first :: others))) force
                           largeImageUrl = CoverArt first) ∧
  do_get_artist_artwork (Directory (first :: others)) force largeImageUrl =
    CoverArt first.
Proof.
  intros Hp. unfold do_get_artist_artwork. rewrite Hp. simpl.
  split_and!.
  - intros Hc. by rewrite Hc.
  - intros Hc. by rewrite Hc.
  - done.
Qed.

(** X24: without an image URL nothing is ever downloaded: the answer is
    a cover-art id of the server or the empty path.  With a placeholder
    URL and no cover-art id to fall back on, the placeholder image itself
    is fetched. *)
Theorem no_url_no_download (a : artist) (force : bool)
    (largeImageUrl : option (list string)) :
  (lastfm_url largeImageUrl = "" →
     match do_get_artist_artwork a force largeImageUrl with
     | Download _ _ _ => False
     | CoverArt _ | NoArtwork => True
     end) ∧
  (lastfm_url largeImageUrl ≠ "" → server_cover_art a = None →
     do_get_artist_artwork a force largeImageUrl =
       Download ("cover_art/artist." +:+ md5_hexdigest (lastfm_url largeImageUrl))
                (lastfm_url largeImageUrl) force).
Proof.
  unfold do_get_artist_artwork. split.
  - intros ->. simpl.
    destruct a as [c [[|first others]|]|c|[|first others]|]; simpl;
      try done; by destruct (truthy c).
  - intros Hne Hnone. rewrite Hnone.
    apply String.eqb_neq in Hne. rewrite Hne.
    by destruct (is_placeholder (lastfm_url largeImageUrl)).
Qed.

End artwork.

(** The witnesses, with the identity standing in for the hash. *)
Lemma real_url_keyed_by_hash_witness :
  do_get_artist_artwork (λ s, s) (ID3 (Some "ar-1")) false (Some ["http://x/a.png"]) =
    do_get_artist_artwork (λ s, s) Plain false (Some ["http://x/a.png"]).
Proof.
  apply (real_url_keyed_by_hash (λ s, s) (ID3 (Some "ar-1")) Plain false
           (Some ["http://x/a.png"])).
  reflexivity.
Defined.

Lemma placeholder_uses_server_cover_art_witness :
  do_get_artist_artwork (λ s, s) (Directory [Some "al-7"; None]) true None =
    CoverArt (Some "al-7").
Proof.
  apply (placeholder_uses_server_cover_art (λ s, s) true None None None
           (Some "al-7") [None]).
  reflexivity.
Defined.

End Artwork.

(** ** Removing cached cover art: [delete_cached_cover_art] *)

Module CoverArtRemoval.

Section removal.

(** The content of a file; the [cover_art/] directory maps file names to
    contents, as in the migration. *)
Context {Content : Type}.

(** [str(id)] in the f-string: the decimal writing of the integer. *)
Definition str (id : Z) : string := pretty id.

(** [needle in hay], for strings. *)
Fixpoint contains (needle hay : string) : bool :=
  String.prefix needle hay
  || match hay with
     | EmptyString => false
     | String _ rest => contains needle rest
     end.

(** A name that [glob] leaves out for a pattern that does not start with
    a dot. *)
Definition hidden (name : string) : bool :=
  match name with
  | String "."%char _ => true
  | _ => false
  end.

(** Whether [glob.glob] lists the file [name] for the pattern
    [cover_art/*<id>*]: each star stands for any run of characters, so
    the name has to contain the digits of the id somewhere. *)
Definition listed (id : Z) (name : string) : bool :=
  negb (hidden name) && contains (str id) name.

(** [glob.glob(str(abs_path))] on the directory. *)
Definition glob (id : Z) (d : gmap string Content) : list string :=
  filter (λ name, listed id name = true) (map_to_list d).*1.

(** [delete_cached_cover_art(id)]: every path listed is unlinked. *)
Definition delete_cached_cover_art (id : Z) (d : gmap string Content)
  : gmap string Content :=
  foldl (λ d name, delete name d) d (glob id d).

Lemma foldl_delete_lookup (l : list string) (d : gmap string Content) name :
  foldl (λ d name, delete name d) d l !! name =
    if bool_decide (name ∈ l) then None else d !! name.
Proof.
  revert d. induction l as [|x l IH]; intros d; simpl; [done|].
  rewrite IH. destruct (decide (x = name)) as [->|Hne].
  - rewrite lookup_delete_eq.
    rewrite (bool_decide_eq_true_2 (name ∈ name :: l)) by (by left).
    by case_bool_decide.
  - rewrite lookup_delete_ne by done.
    destruct (decide (name ∈ l)) as [Hin|Hnin].
    + rewrite !bool_decide_eq_true_2; [done|by right|done].
    + rewrite !bool_decide_eq_false_2; [done| |done].
      intros [?|?]%elem_of_cons; congruence.
Qed.

(** X25: after [delete_cached_cover_art(id)] a file is gone exactly when
    its name is not hidden and contains the decimal digits of [id]
    anywhere; every other file is there as before. *)
Theorem delete_cached_cover_art_lookup
    (id : Z) (d : gmap string Content) (name : string) :
  delete_cached_cover_art id d !! name =
    if listed id name then None else d !! name.
Proof.
  unfold delete_cached_cover_art. rewrite foldl_delete_lookup.
  unfold glob. destruct (listed id name) eqn:Hl.
  - case_bool_decide as Hin; [done|].
    destruct (d !! name) as [c|] eqn:Hd; [|done].
    exfalso. apply Hin. apply list_elem_of_filter. split; [done|].
    apply list_elem_of_fmap. exists (name, c). split; [done|].
    by apply elem_of_map_to_list.
  - rewrite bool_decide_eq_false_2; [done|].
    intros [Hl' _]%list_elem_of_filter. congruence.
Qed.

End removal.

(** *** The names that contain the digits of an id *)

Lemma prefix_app (s t : string) : String.prefix s (s +:+ t) = true.
Proof.
  induction s as [|c s IH]; simpl.
  - by destruct t.
  - change (String c s +:+ t) with (String c (s +:+ t)). simpl.
    destruct (ascii_dec c c); [exact IH|done].
Qed.

Lemma contains_prefix (needle hay : string) :
  String.prefix needle hay = true → contains needle hay = true.
Proof.
  intros Hp. destruct hay as [|c hay].
  - change (String.prefix needle "" || false = true). by rewrite Hp.
  - change (String.prefix needle (String c hay) || contains needle hay = true).
    by rewrite Hp.
Qed.

Lemma string_app_nil_r (s : string) : s +:+ "" = s.
Proof.
  induction s as [|c s IH]; [done|].
  change (String c (s +:+ "") = String c s). by rewrite IH.
Qed.

Lemma string_app_assoc (s t u : string) :
  (s +:+ t) +:+ u = s +:+ (t +:+ u).
Proof.
  induction s as [|c s IH]; [done|].
  change (String c ((s +:+ t) +:+ u) = String c (s +:+ (t +:+ u))).
  by rewrite IH.
Qed.

Lemma pretty_N_go_app (x : N) (s : string) :
  pretty_N_go x s = pretty_N_go x "" +:+ s.
Proof.
  revert s. induction (N.lt_wf_0 x) as [x _ IH]; intros s.
  destruct (decide (0 < x)%N) as [Hx|Hx].
  - rewrite !(pretty_N_go_step x) by done.
    assert (Hlt : (x `div` 10 < x)%N) by (apply N.div_lt; lia).
    rewrite (IH _ Hlt (String _ s)), (IH _ Hlt (String _ "")).
    by rewrite string_app_assoc.
  - assert (x = 0%N) as -> by lia. by rewrite !pretty_N_go_0.
Qed.

Lemma pretty_N_snoc (x k : N) :
  (0 < x)%N → (k < 10)%N →
  pretty (10 * x + k)%N = pretty x +:+ String (pretty_N_char k) "".
Proof.
  intros Hx Hk. unfold pretty at 1 2, pretty_N.
  assert ((10 * x + k)%N ≠ 0%N) by lia.
  assert (x ≠ 0%N) by lia.
  rewrite !decide_False by done.
  rewrite pretty_N_go_step by lia.
  replace ((10 * x + k) `div` 10)%N with x
    by (apply N.div_unique with k; lia).
  replace ((10 * x + k) `mod` 10)%N with k
    by (apply N.mod_unique with x; lia).
  apply pretty_N_go_app.
Qed.

Lemma pretty_N_char_not_dot (k : N) : pretty_N_char k ≠ "."%char.
Proof. unfold pretty_N_char. repeat case_match; done. Qed.

Lemma pretty_N_go_not_hidden (x : N) (s : string) :
  (0 < x)%N → hidden (pretty_N_go x s) = false.
Proof.
  revert s. induction (N.lt_wf_0 x) as [x _ IH]; intros s Hx.
  rewrite pretty_N_go_step by done.
  destruct (decide (0 < x `div` 10)%N) as [Hd|Hd].
  - apply IH; [apply N.div_lt; lia|done].
  - apply N.nlt_ge, N.le_0_r in Hd. rewrite Hd, pretty_N_go_0.
    simpl. pose proof (pretty_N_char_not_dot (x `mod` 10)) as Hc.
    destruct (pretty_N_char (x `mod` 10)) as [[] [] [] [] [] [] [] []];
      done.
Qed.

Lemma str_snoc (id k : Z) :
  (0 < id)%Z → (0 ≤ k < 10)%Z →
  str (10 * id + k) = str id +:+ String (pretty_N_char (Z.to_N k)) "".
Proof.
  intros Hid Hk. unfold str.
  destruct id as [|p|p]; try lia.
  destruct (10 * Z.pos p + k)%Z as [|q|q] eqn:Hq; try lia.
  unfold pretty, pretty_Z, pretty, pretty_positive.
  replace (N.pos q) with (10 * N.pos p + Z.to_N k)%N by lia.
  apply pretty_N_snoc; lia.
Qed.

Lemma str_not_hidden (id : Z) : (0 < id)%Z → hidden (str id) = false.
Proof.
  intros Hid. destruct id as [|p|p]; try lia.
  unfold str, pretty, pretty_Z, pretty, pretty_positive, pretty, pretty_N.
  rewrite decide_False by done. by apply pretty_N_go_not_hidden.
Qed.

(** X26: deleting the cover art of a positive id deletes more than the
    file of that id: the file named by the id goes, and so does the file
    named by any id with one more decimal digit at the end.  Deleting the
    art of 12 takes the art of 120 to 129 with it. *)
Theorem delete_takes_longer_ids {Content : Type}
    (id k : Z) (d : gmap string Content) :
  (0 < id)%Z → (0 ≤ k < 10)%Z →
  delete_cached_cover_art id d !! str id = None ∧
  delete_cached_cover_art id d !! str (10 * id + k) = None.
Proof.
  intros Hid Hk. rewrite !delete_cached_cover_art_lookup.
  assert (H1 : listed id (str id) = true).
  { unfold listed. rewrite str_not_hidden by done. simpl.
    apply contains_prefix.
    rewrite <- (string_app_nil_r (str id)) at 2. apply prefix_app. }
  assert (H2 : listed id (str (10 * id + k)) = true).
  { unfold listed. rewrite str_not_hidden by lia. simpl.
    apply contains_prefix. rewrite str_snoc by done. apply prefix_app. }
  by rewrite H1, H2.
Qed.

(** The witness: the art of 12 and of 127. *)
Lemma delete_takes_longer_ids_witness :
  let d := <["12" := 1]> (<["127" := 2]> (<["3" := 3]> (∅ : gmap string nat))) in
  delete_cached_cover_art 12 d !! str 12 = None ∧
  delete_cached_cover_art 12 d !! str (10 * 12 + 7) = None.
Proof. intros d. apply (delete_takes_longer_ids 12 7 d); lia. Defined.

End CoverArtRemoval.

(** ** Read-through retrieval: [get_artists], [get_artist], [get_album] *)

Module Retrieval.

Section retrieval.

(** The entity classes of [server/api_objects.py], with the two accessors
    the code uses: [album.get("song", [])] and [song.id]. *)
Context {ArtistID3 ArtistWithAlbumsID3 AlbumWithSongsID3 Child : Type}.
Variable song : AlbumWithSongsID3 → list Child.
Variable song_id : Child → Z.

(** The categories of [self.cache] these operations read and write. *)
Record Cache := {
  artists : list ArtistID3;
  artist_details : gmap Z ArtistWithAlbumsID3;
  album_details : gmap Z AlbumWithSongsID3;
  song_details : gmap Z Child
}.

(** [get_artists(before_download, force)]: a list that is empty counts as
    absent. *)
Definition get_artists (c : Cache) (force : bool)
  : Result.t (list ArtistID3) string :=
  if (0 <? length (artists c)) && negb force
  then Result.from_data (Some (artists c))
  else Result.from_server "download_fn" (Some "before_download")
                          (Some "after_download") None.

(** [download_fn()] of [get_artists], on the [index] list of the server's
    answer, each index given by its [artist] list. *)
Definition get_artists_download (index : list (list ArtistID3))
  : list ArtistID3 :=
  foldl (λ artists artist, artists ++ artist) [] index.

(** [after_download(artists)] of [get_artists]. *)
Definition get_artists_after_download (c : Cache) (fetched : list ArtistID3)
  : Cache :=
  {| artists := fetched;
     artist_details := artist_details c;
     album_details := album_details c;
     song_details := song_details c |}.

(** [get_artist(artist_id, before_download, force)]. *)
Definition get_artist (c : Cache) (artist_id : Z) (force : bool)
  : Result.t ArtistWithAlbumsID3 string :=
  match artist_details c !! artist_id with
  | Some artist =>
      if negb force then Result.from_data (Some artist)
      else Result.from_server "server.get_artist" (Some "before_download")
                              (Some "after_download") None
  | None =>
      Result.from_server "server.get_artist" (Some "before_download")
                         (Some "after_download") None
  end.

(** [after_download(artist)] of [get_artist]. *)
Definition get_artist_after_download (c : Cache) (artist_id : Z)
    (artist : ArtistWithAlbumsID3) : Cache :=
  {| artists := artists c;
     artist_details := <[artist_id := artist]> (artist_details c);
     album_details := album_details c;
     song_details := song_details c |}.

(** [get_album(album_id, before_download, force)]. *)
Definition get_album (c : Cache) (album_id : Z) (force : bool)
  : Result.t AlbumWithSongsID3 string :=
  match album_details c !! album_id with
  | Some album =>
      if negb force then Result.from_data (Some album)
      else Result.from_server "server.get_album" (Some "before_download")
                              (Some "after_download") None
  | None =>
      Result.from_server "server.get_album" (Some "before_download")
                         (Some "after_download") None
  end.

(** [after_download(album)] of [get_album]: the album is stored, and each
    of its songs is stored under its own id. *)
Definition get_album_after_download (c : Cache) (album_id : Z)
    (album : AlbumWithSongsID3) : Cache :=
  {| artists := artists c;
     artist_details := artist_details c;
     album_details := <[album_id := album]> (album_details c);
     song_details :=
       foldl (λ details s, <[song_id s := s]> details) (song_details c)
             (song album) |}.

Lemma foldl_app_concat (index : list (list ArtistID3)) (acc : list ArtistID3) :
  foldl (λ artists artist, artists ++ artist) acc index = acc ++ concat index.
Proof.
  revert acc. induction index as [|artist index IH]; intros acc; simpl.
  - by rewrite app_nil_r.
  - by rewrite IH, app_assoc.
Qed.

(** X27: once the artists fetched from the server's indexes are stored,
    the next [get_artists] without [force] is immediate and carries the
    artists of all the indexes, in order; unless the server has no artist
    at all, in which case the empty list stored counts as a miss and the
    next call fetches again. *)
Theorem artists_round_trip (c : Cache) (index : list (list ArtistID3)) :
  get_artists_download index = concat index ∧
  get_artists (get_artists_after_download c (get_artists_download index))
              false =
    match concat index with
    | [] => Result.from_server "download_fn" (Some "before_download")
                               (Some "after_download") None
    | _ :: _ => Result.from_data (Some (concat index))
    end.
Proof.
  assert (Hd : get_artists_download index = concat index).
  { unfold get_artists_download. by rewrite foldl_app_concat. }
  split; [done|]. rewrite Hd. unfold get_artists. simpl.
  by destruct (concat index).
Qed.

(** X28: once an artist is stored under its id, [get_artist] for that id
    without [force] is immediate and carries it, and with [force] it
    fetches; for every other id [get_artist] answers as before. *)
Theorem artist_round_trip (c : Cache) (artist_id : Z)
    (artist : ArtistWithAlbumsID3) :
  let stored := get_artist_after_download c artist_id artist in
  get_artist stored artist_id false = Result.from_data (Some artist) ∧
  Result.is_future (get_artist stored artist_id true) = true ∧
  ∀ other force, other ≠ artist_id →
    get_artist stored other force = get_artist c other force.
Proof.
  intros stored. subst stored. unfold get_artist. simpl.
  rewrite lookup_insert_eq. split_and!; [done|done|].
  intros other force Hne. by rewrite lookup_insert_ne.
Qed.

Lemma fan_out_other (songs : list Child) (details : gmap Z Child) (id : Z) :
  id ∉ song_id <$> songs →
  foldl (λ details s, <[song_id s := s]> details) details songs !! id =
    details !! id.
Proof.
  revert details. induction songs as [|s songs IH]; intros details Hid;
    simpl; [done|].
  rewrite fmap_cons in Hid. apply not_elem_of_cons in Hid as [Hne Hid].
  rewrite IH by done. by rewrite lookup_insert_ne.
Qed.

Lemma fan_out_id (songs : list Child) (details : gmap Z Child) (id : Z) :
  id ∈ song_id <$> songs →
  ∃ s', foldl (λ details s, <[song_id s := s]> details) details songs !! id
          = Some s'
        ∧ s' ∈ songs ∧ song_id s' = id.
Proof.
  revert details. induction songs as [|x songs IH]; intros details Hin;
    simpl.
  - by apply elem_of_nil in Hin.
  - destruct (decide (id ∈ song_id <$> songs)) as [Hlater|Hlast].
    + destruct (IH (<[song_id x := x]> details) Hlater)
        as (s' & Hl & Hs' & Hid').
      exists s'. split_and!; [done|by right|done].
    + rewrite fan_out_other by done.
      rewrite fmap_cons in Hin. apply elem_of_cons in Hin as [->|Hin].
      * exists x. rewrite lookup_insert_eq. split_and!; [done|by left|done].
      * done.
Qed.

Lemma fan_out_song (songs : list Child) (details : gmap Z Child) (s : Child) :
  s ∈ songs →
  ∃ s', foldl (λ details s, <[song_id s := s]> details) details songs
          !! song_id s = Some s'
        ∧ s' ∈ songs ∧ song_id s' = song_id s.
Proof.
  intros Hin. apply fan_out_id. apply list_elem_of_fmap. by exists s.
Qed.

(** X29: once an album is stored, [get_album] for its id without
    [force] is immediate and carries it, and every song of the album can
    be looked up in [song_details] under its own id, where a song of the
    album with that id is found; the entries of [song_details] under ids
    that no song of the album has are as before. *)
Theorem album_fans_out_songs (c : Cache) (album_id : Z)
    (album : AlbumWithSongsID3) :
  let stored := get_album_after_download c album_id album in
  get_album stored album_id false = Result.from_data (Some album) ∧
  (∀ s, s ∈ song album →
     ∃ s', song_details stored !! song_id s = Some s' ∧
           s' ∈ song album ∧ song_id s' = song_id s) ∧
  (∀ id, id ∉ song_id <$> song album →
     song_details stored !! id = song_details c !! id).
Proof.
  intros stored. subst stored. split_and!.
  - unfold get_album. simpl. by rewrite lookup_insert_eq.
  - intros s Hs. simpl. by apply fan_out_song.
  - intros id Hid. simpl. by apply fan_out_other.
Qed.

End retrieval.

End Retrieval.

(** ** The server address: [__init__] and [current_ssids] *)

Module Hostname.

(** [NM.DeviceType]: the WiFi type, or any other. *)
Inductive DeviceType := WIFI | OtherDevice.

#[global] Instance DeviceType_eq_dec : EqDecision DeviceType.
Proof. solve_decision. Defined.

(** An active connection of NetworkManager, with what
    [get_connection_type()], [get_devices()] (each device by its type) and
    [get_id()] answer. *)
Record ActiveConnection := {
  connection_type : string;
  devices : list DeviceType;
  id : string
}.

(** The fields of [app_config.server] that [__init__] reads to pick the
    host. *)
Record ServerConfiguration := {
  server_address : string;
  local_network_address : string;
  local_network_ssid : string
}.

(** The body of the loop of [current_ssids]: the three [continue] tests,
    then [self._current_ssids.add(ac.get_id())]. *)
Definition add_ssid (ssids : gset string) (ac : ActiveConnection)
  : gset string :=
  if negb (String.eqb (connection_type ac) "802-11-wireless") then ssids
  else if negb (length (devices ac) =? 1) then ssids
  else match devices ac with
       | WIFI :: _ => ssids ∪ {[id ac]}
       | _ => ssids
       end.

(** [current_ssids]: empty when the import of NetworkManager failed. *)
Definition current_ssids (networkmanager_imported : bool)
    (active_connections : list ActiveConnection) : gset string :=
  if negb networkmanager_imported then ∅
  else foldl add_ssid ∅ active_connections.

(** The [hostname] that [__init__] hands to [Server]. *)
Definition hostname (networkmanager_imported : bool)
    (active_connections : list ActiveConnection)
    (server : ServerConfiguration) : string :=
  if bool_decide (local_network_ssid server
                    ∈ current_ssids networkmanager_imported active_connections)
  then local_network_address server
  else server_address server.

(** An active connection that counts: wireless, with exactly one device,
    and that device a WiFi device. *)
Definition wifi (ac : ActiveConnection) : Prop :=
  connection_type ac = "802-11-wireless" ∧ devices ac = [WIFI].

Lemma elem_of_add_ssid ssids ac ssid :
  ssid ∈ add_ssid ssids ac ↔ ssid ∈ ssids ∨ (wifi ac ∧ id ac = ssid).
Proof.
  unfold add_ssid, wifi.
  destruct (String.eqb (connection_type ac) "802-11-wireless") eqn:Ht; simpl.
  - apply String.eqb_eq in Ht.
    destruct (devices ac) as [|[] [|d ds]]; simpl;
      try (split; [by left|intros [?|[[_ ?] _]]; done]).
    rewrite elem_of_union, elem_of_singleton. split.
    + intros [?| ->]; [by left|by right].
    + intros [?|[_ <-]]; [by left|by right].
  - apply String.eqb_neq in Ht.
    split; [by left|intros [?|[[? _] _]]; done].
Qed.

Lemma elem_of_foldl_add_ssid active ssids ssid :
  ssid ∈ foldl add_ssid ssids active ↔
  ssid ∈ ssids ∨ ∃ ac, ac ∈ active ∧ wifi ac ∧ id ac = ssid.
Proof.
  revert ssids. induction active as [|ac active IH]; intros ssids; simpl.
  - split; [by left|]. intros [?|(ac & ?%elem_of_nil & _)]; done.
  - rewrite IH, elem_of_add_ssid. split.
    + intros [[?|[? ?]]|(ac' & ? & ? & ?)].
      * by left.
      * right. exists ac. split_and!; [by left|done..].
      * right. exists ac'. split_and!; [by right|done..].
    + intros [?|(ac' & Hin & ? & ?)]; [by left; left|].
      apply elem_of_cons in Hin as [->|Hin].
      * left. by right.
      * right. by exists ac'.
Qed.

(** X30: the local network address is picked exactly when NetworkManager
    was imported and some active connection is wireless, has exactly one
    device, a WiFi device, and carries the configured SSID as its id;
    in every other case, and always without NetworkManager, the server
    address is picked. *)
Theorem hostname_choice (networkmanager_imported : bool)
    (active_connections : list ActiveConnection)
    (server : ServerConfiguration) :
  (hostname networkmanager_imported active_connections server =
     local_network_address server ∧
   networkmanager_imported = true ∧
   ∃ ac, ac ∈ active_connections ∧ wifi ac ∧
         id ac = local_network_ssid server)
  ∨
  (hostname networkmanager_imported active_connections server =
     server_address server ∧
   ¬ (networkmanager_imported = true ∧
      ∃ ac, ac ∈ active_connections ∧ wifi ac ∧
            id ac = local_network_ssid server)).
Proof.
  unfold hostname, current_ssids.
  destruct networkmanager_imported; simpl.
  - case_bool_decide as Hin.
    + left. apply elem_of_foldl_add_ssid in Hin as [?%elem_of_empty|Hac];
        [done|]. done.
    + right. split; [done|]. intros [_ Hac]. apply Hin.
      apply elem_of_foldl_add_ssid. by right.
  - right. rewrite bool_decide_eq_false_2 by apply not_elem_of_empty.
    split; [done|]. by intros [? _].
Qed.

End Hostname.
